(** * micro-flag.h: a shallow embedding of the flag parser and help renderer

    The development follows [src/micro-flag.h].  The two entry points,
    [micro_flag_parse] and [micro_flag_print_help], are embedded as
    functions over

    - the flag table [(flags, num_flags)], a [list MicroFlag];
    - the argument vector [(argc, argv)], a [list string];
    - the caller-owned storage the [value] pointers point into, a finite
      map from addresses to typed cells (two flags may share an address);
    - the standard output stream, the text written so far.

    The C library calls the code makes ([printf], [strcmp], [strlen],
    [strtol], [strtod]) are modelled next to the code.  [strtod] is taken
    as a parameter of the model. *)

From Stdlib Require Import ZArith Ascii String List Lia DecimalString.
From Stdlib Require Import Floats.SpecFloat.
From stdpp Require Import base option list gmap.

Local Open Scope string_scope.

(** ** Types (micro-flag.h, lines 118-156) *)

Inductive MicroFlagError :=
  | MICRO_FLAG_OK
  | MICRO_FLAG_ERROR_UNKNOWN_TYPE
  | MICRO_FLAG_ERROR_MISSING_CHAR
  | MICRO_FLAG_ERROR_MISSING_STR
  | MICRO_FLAG_ERROR_MISSING_INT
  | MICRO_FLAG_ERROR_MISSING_DOUBLE
  | MICRO_FLAG_ERROR_CHAR_WRONG_ARG
  | MICRO_FLAG_ERROR_UNKNOWN_FLAG
  | MICRO_FLAG_ERROR_NOT_AN_INT
  | MICRO_FLAG_ERROR_NOT_A_DOUBLE
  | _MICRO_FLAG_ERROR_MAX.

Inductive MicroFlagType :=
  | MICRO_FLAG_BOOL
  | MICRO_FLAG_CHAR
  | MICRO_FLAG_STR
  | MICRO_FLAG_INT
  | MICRO_FLAG_DOUBLE
  | _MICRO_FLAG_MAX.

(** The numeric value of an enumerator, used to index [micro_flag_type_str]. *)
Definition type_index (t : MicroFlagType) : nat :=
  match t with
  | MICRO_FLAG_BOOL => 0
  | MICRO_FLAG_CHAR => 1
  | MICRO_FLAG_STR => 2
  | MICRO_FLAG_INT => 3
  | MICRO_FLAG_DOUBLE => 4
  | _MICRO_FLAG_MAX => 5
  end.

(** Addresses of caller-owned variables. *)
Definition addr := nat.

(** A single flag.  [value] is the opaque pointer; [short_name] and
    [long_name] may be [NULL] ([None]), the code tests them. *)
Record MicroFlag := mkFlag {
  type : MicroFlagType;
  value : addr;
  short_name : option string;
  long_name : option string;
  description : string
}.

(** ** C library *)

Definition nl : string := String "010"%char EmptyString.
Definition dquote : string := String "034"%char EmptyString.

(** What [printf] writes for a [%s] argument.  A null argument is written
    as [(null)], as glibc does. *)
Definition show_arg (a : option string) : string :=
  match a with
  | Some s => s
  | None => "(null)"
  end.

(** [printf] for formats whose only conversion is [%s]. *)
Fixpoint printf (fmt : string) (args : list (option string)) : string :=
  match fmt with
  | EmptyString => EmptyString
  | String "%"%char (String "s"%char rest) =>
      match args with
      | a :: args' => show_arg a ++ printf rest args'
      | [] => printf rest []
      end
  | String c rest => String c (printf rest args)
  end.

Definition strlen (s : string) : nat := String.length s.

(** [name && strcmp (name, tok) == 0] *)
Definition name_is (name : option string) (tok : string) : bool :=
  match name with
  | Some n => String.eqb n tok
  | None => false
  end.

(** [*s], the first character of a C string (the terminator when empty). *)
Definition deref (s : string) : ascii :=
  match s with
  | String c _ => c
  | EmptyString => "000"%char
  end.

(** [argv[i]].  Every read the code makes is below [argc] (lemma
    [scan_flags_in_bounds]); the default is never used. *)
Definition arg (argv : list string) (i : nat) : string :=
  default EmptyString (argv !! i).

(** The result of [strtol] and [strtod]: the converted value, the offset
    of [endptr] from the start of the text, and whether [errno] was set
    to [ERANGE]. *)
Record conversion (A : Type) := mkConv {
  conv_val : A;
  conv_end : nat;
  conv_erange : bool
}.
Arguments mkConv {A} _ _ _.
Arguments conv_val {A} _.
Arguments conv_end {A} _.
Arguments conv_erange {A} _.

Definition INT_MAX : Z := 2147483647.
Definition INT_MIN : Z := -2147483648.
(** [long] as on LP64 platforms. *)
Definition LONG_MAX : Z := 9223372036854775807.
Definition LONG_MIN : Z := -9223372036854775808.

Definition isspace (c : ascii) : bool :=
  let n := nat_of_ascii c in
  ((n =? 32) || ((9 <=? n) && (n <=? 13)))%nat.

Definition digit_of (c : ascii) : option Z :=
  let n := nat_of_ascii c in
  if ((48 <=? n) && (n <=? 57))%nat then Some (Z.of_nat (n - 48)) else None.

(** Leading white space: how many characters, and the rest. *)
Fixpoint skip_space (s : string) : nat * string :=
  match s with
  | String c rest =>
      if isspace c then let '(n, r) := skip_space rest in (S n, r)
      else (0, s)
  | EmptyString => (0, s)
  end.

(** An optional sign: is it negative, how many characters, and the rest. *)
Definition read_sign (s : string) : bool * nat * string :=
  match s with
  | String "-"%char rest => (true, 1, rest)
  | String "+"%char rest => (false, 1, rest)
  | _ => (false, 0, s)
  end.

(** The longest run of decimal digits: its value on top of [acc], how many
    digits, and the rest. *)
Fixpoint read_digits (s : string) (acc : Z) : Z * nat * string :=
  match s with
  | String c rest =>
      match digit_of c with
      | Some d => let '(v, n, r) := read_digits rest (10 * acc + d)%Z in (v, S n, r)
      | None => (acc, 0, s)
      end
  | EmptyString => (acc, 0, s)
  end.

(** [strtol (s, &endptr, 10)]. *)
Definition strtol (s : string) : conversion Z :=
  let '(nws, s1) := skip_space s in
  let '(neg, nsign, s2) := read_sign s1 in
  let '(v, nd, _) := read_digits s2 0%Z in
  match nd with
  | O => mkConv 0%Z 0 false
  | _ =>
      let v := if neg then (- v)%Z else v in
      let stop := nws + nsign + nd in
      if (LONG_MAX <? v)%Z then mkConv LONG_MAX stop true
      else if (v <? LONG_MIN)%Z then mkConv LONG_MIN stop true
      else mkConv v stop false
  end.

(** ** The parser (micro-flag.h, lines 203-308) *)

Section Parser.

(** The C [double] and the platform's [strtod]. *)
Context {double : Type}.
Variable strtod : string -> conversion double.

(** What a destination holds after a flag of each kind wrote to it. *)
Inductive cell :=
  | CBool (b : bool)
  | CChar (c : ascii)
  | CStr (s : string)
  | CInt (z : Z)
  | CDouble (d : double).

(** The variables of the two loops and the world they act on: the index
    [i] into [argv], the local [found], the caller's storage and the
    text on standard output. *)
Record state := mkState {
  pos : nat;
  found : bool;
  mem : gmap addr cell;
  out : string
}.

Definition set_found (s : state) : state :=
  mkState (pos s) true (mem s) (out s).

(** [*((T* ) flags[flag].value) = v] *)
Definition store (a : addr) (v : cell) (s : state) : state :=
  mkState (pos s) (found s) (<[a := v]> (mem s)) (out s).

(** [i++] *)
Definition advance (s : state) : state :=
  mkState (S (pos s)) (found s) (mem s) (out s).

Definition emit (fmt : string) (args : list (option string)) (s : state) : state :=
  mkState (pos s) (found s) (mem s) (out s ++ printf fmt args).

(** One pass through a loop body either falls through or returns. *)
Inductive flow :=
  | Continue (s : state)
  | Return (e : MicroFlagError) (s : state).

Definition usage (placeholder : string) (f : MicroFlag) (s : state) : state :=
  emit ("Usage: %s,%s " ++ placeholder ++ nl) [short_name f; long_name f] s.

(** The test of lines 214-215. *)
Definition matches (f : MicroFlag) (tok : string) : bool :=
  name_is (short_name f) tok || name_is (long_name f) tok.

(** The [switch] of lines 218-297. *)
Definition dispatch (argv : list string) (f : MicroFlag) (s : state) : flow :=
  let argc := length argv in
  let i := pos s in
  match type f with
  | MICRO_FLAG_BOOL =>
      Continue (store (value f) (CBool true) s)
  | MICRO_FLAG_CHAR =>
      if (argc <=? i + 1)%nat
      then Return MICRO_FLAG_ERROR_MISSING_CHAR (usage "<char>" f s)
      else if negb (strlen (arg argv (i + 1)) =? 1)%nat
      then Return MICRO_FLAG_ERROR_CHAR_WRONG_ARG (usage "<char>" f s)
      else Continue (advance (store (value f) (CChar (deref (arg argv (i + 1)))) s))
  | MICRO_FLAG_STR =>
      if (argc <=? i + 1)%nat
      then Return MICRO_FLAG_ERROR_MISSING_STR (usage "<string>" f s)
      else Continue (advance (store (value f) (CStr (arg argv (i + 1))) s))
  | MICRO_FLAG_INT =>
      if (argc <=? i + 1)%nat
      then Return MICRO_FLAG_ERROR_MISSING_INT (usage "<integer>" f s)
      else
        let r := strtol (arg argv (i + 1)) in
        if (conv_end r =? 0)%nat || conv_erange r
           || (INT_MAX <? conv_val r)%Z || (conv_val r <? INT_MIN)%Z
        then Return MICRO_FLAG_ERROR_NOT_AN_INT (usage "<integer>" f s)
        else Continue (advance (store (value f) (CInt (conv_val r)) s))
  | MICRO_FLAG_DOUBLE =>
      if (argc <=? i + 1)%nat
      then Return MICRO_FLAG_ERROR_MISSING_DOUBLE (usage "<double>" f s)
      else
        let r := strtod (arg argv (i + 1)) in
        if (conv_end r =? 0)%nat || conv_erange r
        then Return MICRO_FLAG_ERROR_NOT_A_DOUBLE (usage "<double>" f s)
        else Continue (advance (store (value f) (CDouble (conv_val r)) s))
  | _MICRO_FLAG_MAX =>
      Return MICRO_FLAG_ERROR_UNKNOWN_TYPE s
  end.

(** The body of the inner loop (lines 214-298) for one declaration. *)
Definition flag_body (argv : list string) (f : MicroFlag) (s : state) : flow :=
  if matches f (arg argv (pos s))
  then dispatch argv f (set_found s)
  else Continue s.

(** The inner loop (lines 212-299) over the declarations still to be
    checked.  It has no [break]: after a match the remaining
    declarations are checked against [argv[i]] for the current [i]. *)
Fixpoint scan_flags (argv : list string) (flags : list MicroFlag) (s : state) : flow :=
  match flags with
  | [] => Continue s
  | f :: flags' =>
      match flag_body argv f s with
      | Continue s' => scan_flags argv flags' s'
      | Return e s' => Return e s'
      end
  end.

(** What the caller observes: the returned code, its storage and the
    standard output. *)
Definition outcome : Type := MicroFlagError * gmap addr cell * string.

(** The outer loop (lines 208-305) from index [i].  [fuel] bounds the
    number of iterations; [argc - i] is always enough
    ([parse_loop_enough_fuel]). *)
Fixpoint parse_loop (fuel : nat) (flags : list MicroFlag) (argv : list string)
    (i : nat) (m : gmap addr cell) (o : string) : option outcome :=
  if (length argv <=? i)%nat then Some (MICRO_FLAG_OK, m, o)
  else
    match fuel with
    | O => None
    | S fuel' =>
        match scan_flags argv flags (mkState i false m o) with
        | Return e s => Some (e, mem s, out s)
        | Continue s =>
            if negb (found s)
            then
              let s' := emit ("Error parsing flags: unknown flag " ++ dquote ++ "%s" ++ dquote ++ nl)
                             [Some (arg argv (pos s))] s in
              Some (MICRO_FLAG_ERROR_UNKNOWN_FLAG, mem s', out s')
            else parse_loop fuel' flags argv (S (pos s)) (mem s) (out s)
        end
    end.

(** The outer loop from index [i], with the fuel it needs. *)
Definition parse_from (flags : list MicroFlag) (argv : list string)
    (i : nat) (m : gmap addr cell) (o : string) : option outcome :=
  parse_loop (length argv - i) flags argv i m o.

(** The rest of an iteration of the outer loop once the inner loop is
    left with [r] (lines 300-305), followed by the remaining
    iterations. *)
Definition after_scan (flags : list MicroFlag) (argv : list string)
    (r : flow) : option outcome :=
  match r with
  | Return e s => Some (e, mem s, out s)
  | Continue s =>
      if negb (found s)
      then
        let s' := emit ("Error parsing flags: unknown flag " ++ dquote ++ "%s" ++ dquote ++ nl)
                       [Some (arg argv (pos s))] s in
        Some (MICRO_FLAG_ERROR_UNKNOWN_FLAG, mem s', out s')
      else parse_from flags argv (S (pos s)) (mem s) (out s)
  end.

(** [micro_flag_parse (flags, num_flags, argc, argv)], run on the
    caller's storage [m] with nothing yet on standard output. *)
Definition micro_flag_parse (flags : list MicroFlag) (argv : list string)
    (m : gmap addr cell) : option outcome :=
  parse_from flags argv 1 m EmptyString.

End Parser.

Arguments cell : clear implicits.
Arguments state : clear implicits.
Arguments flow : clear implicits.
Arguments outcome : clear implicits.

(** ** The help renderer (micro-flag.h, lines 201 and 310-333) *)

Definition micro_flag_type_str : list string :=
  [ ""; "<char>"; "<str>"; "<int>"; "<double>" ].

(** The loop of lines 320-330, appending to the text [o] already written.
    [micro_flag_type_str] has five entries: indexing it with
    [_MICRO_FLAG_MAX] reads past its end, which has no defined result
    ([None]). *)
Fixpoint print_flags (flags : list MicroFlag) (o : string) : option string :=
  match flags with
  | [] => Some o
  | f :: flags' =>
      let has_short := bool_decide (short_name f <> None) in
      let has_long := bool_decide (long_name f <> None) in
      match micro_flag_type_str !! type_index (type f) with
      | None => None
      | Some placeholder =>
          print_flags flags'
            (o ++ printf ("    %s%s%s %s" ++ nl ++ "        %s" ++ nl)
                    [ (if has_short then short_name f else Some "");
                      Some (if has_long && has_short then "," else "");
                      (if has_long then long_name f else Some "");
                      Some placeholder;
                      Some (description f) ])
      end
  end.

(** [micro_flag_print_help (prog_name, description, flags, num_flags)]:
    the returned code and the text written to standard output. *)
Definition micro_flag_print_help (prog_name description : string)
    (flags : list MicroFlag) : option (MicroFlagError * string) :=
  let o := printf ("%s" ++ nl) [Some prog_name] in
  let o := o ++ printf ("%s" ++ nl) [Some description] in
  let o := o ++ printf nl [] in
  let o := o ++ printf ("Options:" ++ nl) [] in
  match print_flags flags o with
  | Some o' => Some (MICRO_FLAG_OK, o')
  | None => None
  end.

(** ** Reference definitions, following the specification's wording *)

(** The five kinds a declaration may have. *)
Definition declared_kind (t : MicroFlagType) : Prop := t <> _MICRO_FLAG_MAX.

(** The placeholder of each kind in the help text. *)
Definition placeholder_of (t : MicroFlagType) : string :=
  match t with
  | MICRO_FLAG_BOOL => ""
  | MICRO_FLAG_CHAR => "<char>"
  | MICRO_FLAG_STR => "<str>"
  | MICRO_FLAG_INT => "<int>"
  | MICRO_FLAG_DOUBLE => "<double>"
  | _MICRO_FLAG_MAX => ""
  end.

Definition name_text (n : option string) : string :=
  match n with
  | Some s => s
  | None => ""
  end.

(** The first line of a flag's block: short name, a comma when both
    names are present, long name, placeholder. *)
Definition option_line (f : MicroFlag) : string :=
  "    " ++ name_text (short_name f)
  ++ match short_name f, long_name f with
     | Some _, Some _ => ","
     | _, _ => ""
     end
  ++ name_text (long_name f) ++ " " ++ placeholder_of (type f).

(** The second line: the description, indented. *)
Definition description_line (f : MicroFlag) : string :=
  "        " ++ description f.

Definition option_block (f : MicroFlag) : string :=
  option_line f ++ nl ++ description_line f ++ nl.

Definition concat_strings (l : list string) : string :=
  foldr String.append EmptyString l.

(** The diagnostic lines of the parser. *)
Definition usage_line (placeholder : string) (f : MicroFlag) : string :=
  "Usage: " ++ show_arg (short_name f) ++ "," ++ show_arg (long_name f)
  ++ " " ++ placeholder ++ nl.

Definition unknown_flag_line (tok : string) : string :=
  "Error parsing flags: unknown flag " ++ dquote ++ tok ++ dquote ++ nl.

(** A signed decimal literal and nothing else: an optional sign, then
    one or more digits up to the end of the token. *)
Definition valid_int_literal (s : string) : bool :=
  let '(_, _, s1) := read_sign s in
  let '(_, nd, rest) := read_digits s1 0%Z in
  negb (nd =? 0)%nat && (rest =? "").

(** The integer a token starts with, after optional white space and an
    optional sign, whatever its size; [None] when no digit is there. *)
Definition leading_int (s : string) : option Z :=
  let '(_, s1) := skip_space s in
  let '(neg, _, s2) := read_sign s1 in
  let '(v, nd, _) := read_digits s2 0%Z in
  match nd with
  | O => None
  | _ => Some (if neg then (- v)%Z else v)
  end.

Definition in_int_range (v : Z) : Prop := (INT_MIN <= v <= INT_MAX)%Z.

Global Instance in_int_range_dec (z : Z) : Decision (in_int_range z).
Proof. unfold in_int_range. apply _. Defined.

(** ** A [strtod] to run the model with

    Decimal literals (optional white space, optional sign, digits with an
    optional fraction, optional exponent), rounded to the nearest
    binary64 value, ties to even.  [ERANGE] is reported when the result
    overflows or falls below the normal range.  It stands for the
    platform's [strtod] on decimal literals only (hexadecimal literals,
    infinities and NaNs are not read) and serves to evaluate the model on
    sample inputs; the general statements take [strtod] as a parameter. *)

Module Binary64.

Definition prec : Z := 53.
Definition emax : Z := 1024.

Definition double : Type := spec_float.

(** [(-1)^neg * m * 10^e10], rounded. *)
Definition of_decimal (neg : bool) (m e10 : Z) : double :=
  if (m =? 0)%Z then S754_zero neg
  else if (0 <=? e10)%Z
  then binary_round prec emax neg (Z.to_pos (m * 10 ^ e10)) 0
  else
    let '(q, e, l) := SFdiv_core_binary prec emax m 0 (10 ^ (- e10)) 0 in
    binary_round_aux prec emax neg q e l.

Definition out_of_range (m : Z) (x : double) : bool :=
  match x with
  | S754_infinity _ => true
  | S754_zero _ => negb (m =? 0)%Z
  | S754_finite _ mx _ => (Z.pos mx <? 2 ^ (prec - 1))%Z
  | S754_nan => false
  end.

Definition read_exponent (s : string) : Z * nat :=
  match s with
  | String c rest =>
      if Ascii.eqb c "e" || Ascii.eqb c "E"
      then
        let '(neg, nsign, s1) := read_sign rest in
        let '(v, nd, _) := read_digits s1 0%Z in
        match nd with
        | O => (0%Z, 0)
        | _ => (if neg then (- v)%Z else v, 1 + nsign + nd)
        end
      else (0%Z, 0)
  | EmptyString => (0%Z, 0)
  end.

Definition strtod (s : string) : conversion double :=
  let '(nws, s1) := skip_space s in
  let '(neg, nsign, s2) := read_sign s1 in
  let '(ip, ni, s3) := read_digits s2 0%Z in
  let '(m, nfrac, ndot, s4) :=
    match s3 with
    | String "."%char rest =>
        let '(v, n, r) := read_digits rest ip in (v, n, 1, r)
    | _ => (ip, 0, 0, s3)
    end in
  match ni + nfrac with
  | O => mkConv (S754_zero false) 0 false
  | _ =>
      let '(e, nexp) := read_exponent s4 in
      let x := of_decimal neg m (e - Z.of_nat nfrac) in
      mkConv x (nws + nsign + ni + ndot + nfrac + nexp) (out_of_range m x)
  end.

End Binary64.

(** ** Sample inputs: the table and variables of [src/example.c] *)

Definition show_help : addr := 0.
Definition out_name : addr := 1.
Definition a_char : addr := 2.
Definition a_number : addr := 3.
Definition a_double : addr := 4.

Definition example_flags : list MicroFlag :=
  [ mkFlag MICRO_FLAG_BOOL show_help (Some "-h") (Some "--help") "show help message";
    mkFlag MICRO_FLAG_STR out_name (Some "-o") (Some "--output") "set output file";
    mkFlag MICRO_FLAG_CHAR a_char (Some "-c") (Some "--char") "give me a char!";
    mkFlag MICRO_FLAG_INT a_number (Some "-n") (Some "--number") "print this number";
    mkFlag MICRO_FLAG_DOUBLE a_double (Some "-d") (Some "--double") "print a double" ].

(** The defaults [main] sets before parsing; [123.123] is given by its
    decimal digits. *)
Definition example_args : gmap addr (cell Binary64.double) :=
  <[show_help := CBool false]>
  (<[out_name := CStr "out"]>
  (<[a_char := CChar "A"]>
  (<[a_number := CInt 0]>
  (<[a_double := CDouble (Binary64.of_decimal false 123123 (-3))]> ∅)))).

Definition parse_example (argv : list string) :=
  micro_flag_parse Binary64.strtod example_flags argv example_args.

(** ** Auxiliary definitions for the statements below *)

(** The state a loop body leaves, however it is left. *)
Definition flow_state {double : Type} (r : flow double) : state double :=
  match r with
  | Continue s => s
  | Return _ s => s
  end.

(** The cells a declaration can write: [true] for a Bool flag, a value of
    its own kind otherwise, an integer within the range of [int]. *)
Definition written_by {double : Type} (f : MicroFlag) (v : cell double) : Prop :=
  match type f, v with
  | MICRO_FLAG_BOOL, CBool b => b = true
  | MICRO_FLAG_CHAR, CChar _ => True
  | MICRO_FLAG_STR, CStr _ => True
  | MICRO_FLAG_INT, CInt z => in_int_range z
  | MICRO_FLAG_DOUBLE, CDouble _ => True
  | _, _ => False
  end.

(** The text a call has written when it returns [e]: nothing on success,
    one diagnostic line on an error, except for
    [MICRO_FLAG_ERROR_UNKNOWN_TYPE], which is returned silently. *)
Definition diagnostic_of (flags : list MicroFlag) (argv : list string)
    (e : MicroFlagError) (text : string) : Prop :=
  match e with
  | MICRO_FLAG_OK | MICRO_FLAG_ERROR_UNKNOWN_TYPE => text = ""
  | MICRO_FLAG_ERROR_MISSING_CHAR | MICRO_FLAG_ERROR_CHAR_WRONG_ARG =>
      exists f, f ∈ flags /\ text = usage_line "<char>" f
  | MICRO_FLAG_ERROR_MISSING_STR =>
      exists f, f ∈ flags /\ text = usage_line "<string>" f
  | MICRO_FLAG_ERROR_MISSING_INT | MICRO_FLAG_ERROR_NOT_AN_INT =>
      exists f, f ∈ flags /\ text = usage_line "<integer>" f
  | MICRO_FLAG_ERROR_MISSING_DOUBLE | MICRO_FLAG_ERROR_NOT_A_DOUBLE =>
      exists f, f ∈ flags /\ text = usage_line "<double>" f
  | MICRO_FLAG_ERROR_UNKNOWN_FLAG =>
      exists t, t ∈ argv /\ text = unknown_flag_line t
  | _MICRO_FLAG_ERROR_MAX => False
  end.

(** ** The argument vectors of the specification's round trip

    The tokens after [argv[0]], read as the specification describes
    them: a flag token, followed by one value token when its flag is not
    a Bool flag.  [reading] lists the occurrences of the flags in the
    order of the tokens, each with the value it stands for.  It is
    defined when
    - every flag token is the name either of Bool flags only (one or
      several, and all of them occur), or of exactly one declaration;
    - that declaration is of kind Char, Str, Int or Double and its token
      is followed by a value token that [convert] accepts for the kind;
    - the value token is the name of no declaration placed after that
      declaration in the table: the inner loop compares those with the
      value token. *)

Section Reading.

Context {double : Type}.
Variable strtod : string -> conversion double.

(** The value of kind [k] that the text [v] stands for. *)
Definition convert (k : MicroFlagType) (v : string) : option (cell double) :=
  match k with
  | MICRO_FLAG_CHAR =>
      match v with
      | String c EmptyString => Some (CChar c)
      | _ => None
      end
  | MICRO_FLAG_STR => Some (CStr v)
  | MICRO_FLAG_INT =>
      match leading_int v with
      | Some z => if decide (in_int_range z) then Some (CInt z) else None
      | None => None
      end
  | MICRO_FLAG_DOUBLE =>
      let r := strtod v in
      if (conv_end r =? 0)%nat || conv_erange r then None
      else Some (CDouble (conv_val r))
  | MICRO_FLAG_BOOL | _MICRO_FLAG_MAX => None
  end.

(** The declarations placed after the first one that [t] names. *)
Fixpoint later_declarations (t : string) (flags : list MicroFlag) : list MicroFlag :=
  match flags with
  | [] => []
  | f :: flags' => if matches f t then flags' else later_declarations t flags'
  end.

Definition is_bool_flag (f : MicroFlag) : bool :=
  match type f with
  | MICRO_FLAG_BOOL => true
  | _ => false
  end.

(** One occurrence of a flag among the tokens: its declaration and the
    value the occurrence gives it, [true] for a Bool flag. *)
Definition occurrence : Type := MicroFlag * cell double.

Definition destination (x : occurrence) : addr := value (fst x).

Fixpoint reading (flags : list MicroFlag) (tokens : list string)
    : option (list occurrence) :=
  match tokens with
  | [] => Some []
  | t :: rest =>
      let named := List.filter (fun f => matches f t) flags in
      if forallb is_bool_flag named
      then
        match named, reading flags rest with
        | _ :: _, Some occs =>
            Some (map (fun f => (f, CBool true)) named ++ occs)%list
        | _, _ => None
        end
      else
        match named, rest with
        | [f], v :: rest' =>
            if existsb (fun g => matches g v) (later_declarations t flags)
            then None
            else
              match convert (type f) v, reading flags rest' with
              | Some c, Some occs => Some ((f, c) :: occs)
              | _, _ => None
              end
        | _, _ => None
        end
  end.

End Reading.

Arguments occurrence : clear implicits.

(** ** The declarations matched during a run

    The declarations for which the test of lines 214-215 succeeds, in the
    order in which it does, along the same loops as the parser. *)

Section Matched.

Context {double : Type}.
Variable strtod : string -> conversion double.

Fixpoint scan_matched (argv : list string) (flags : list MicroFlag)
    (s : state double) : list MicroFlag :=
  match flags with
  | [] => []
  | f :: flags' =>
      if matches f (arg argv (pos s))
      then
        f :: match dispatch strtod argv f (set_found s) with
             | Continue s' => scan_matched argv flags' s'
             | Return _ _ => []
             end
      else scan_matched argv flags' s
  end.

Fixpoint matched_loop (fuel : nat) (flags : list MicroFlag) (argv : list string)
    (i : nat) (m : gmap addr (cell double)) (o : string) : list MicroFlag :=
  if (length argv <=? i)%nat then []
  else
    match fuel with
    | O => []
    | S fuel' =>
        (scan_matched argv flags (mkState i false m o)
         ++ match scan_flags strtod argv flags (mkState i false m o) with
            | Continue s =>
                if found s
                then matched_loop fuel' flags argv (S (pos s)) (mem s) (out s)
                else []
            | Return _ _ => []
            end)%list
    end.

Definition matched_flags (flags : list MicroFlag) (argv : list string)
    (m : gmap addr (cell double)) : list MicroFlag :=
  matched_loop (length argv - 1) flags argv 1 m EmptyString.

End Matched.

(** ** Further tables *)

(** A declaration whose kind is the enumerator [_MICRO_FLAG_MAX]. *)
Definition unknown_type_flags : list MicroFlag :=
  [ mkFlag _MICRO_FLAG_MAX 0 (Some "-x") (Some "--extra") "of no kind" ].

(** Two declarations with the same short name, the first one taking a
    value. *)
Definition duplicate_name_flags : list MicroFlag :=
  [ mkFlag MICRO_FLAG_CHAR 0 (Some "-x") (Some "--letter") "a letter";
    mkFlag MICRO_FLAG_BOOL 1 (Some "-x") (Some "--switch") "a switch" ].

(** Two Bool flags with the same short name. *)
Definition duplicate_bool_flags : list MicroFlag :=
  [ mkFlag MICRO_FLAG_BOOL 0 (Some "-v") (Some "--verbose") "say more";
    mkFlag MICRO_FLAG_BOOL 1 (Some "-v") (Some "--version") "show the version" ].

(** Two Bool flags pointing to the same variable. *)
Definition switch_a : MicroFlag :=
  mkFlag MICRO_FLAG_BOOL 0 (Some "-a") None "first switch".
Definition switch_b : MicroFlag :=
  mkFlag MICRO_FLAG_BOOL 0 (Some "-b") None "second switch".
Definition shared_destination_flags : list MicroFlag := [ switch_a; switch_b ].

(** Variables at addresses 0 and 1 for these tables. *)
Definition two_switches_off : gmap addr (cell Binary64.double) :=
  <[0 := CBool false]> (<[1 := CBool false]> ∅).

Definition letter_and_switch : gmap addr (cell Binary64.double) :=
  <[0 := CChar "A"]> (<[1 := CBool false]> ∅).

(** ** Storage that agrees with the table *)

(** A cell a variable of kind [k] can hold: a [bool] for Bool, an [int]
    (within its range) for Int, and so on. *)
Definition holds_kind {double : Type} (k : MicroFlagType) (v : cell double) : Prop :=
  match k, v with
  | MICRO_FLAG_BOOL, CBool _ => True
  | MICRO_FLAG_CHAR, CChar _ => True
  | MICRO_FLAG_STR, CStr _ => True
  | MICRO_FLAG_INT, CInt z => in_int_range z
  | MICRO_FLAG_DOUBLE, CDouble _ => True
  | _, _ => False
  end.

(** Every declaration points to a variable of its own kind. *)
Definition well_typed {double : Type} (flags : list MicroFlag)
    (m : gmap addr (cell double)) : Prop :=
  Forall (fun f => exists v, m !! value f = Some v /\ holds_kind (type f) v) flags.

(** Declarations that point to the same variable are of the same kind. *)
Definition consistent (flags : list MicroFlag) : Prop :=
  Forall (fun f => Forall (fun g => value f = value g -> type f = type g) flags) flags.

(** The loop state seen from an argument vector with [d] more strings in
    front. *)
Definition shift {double : Type} (d : nat) (s : state double) : state double :=
  mkState (d + pos s) (found s) (mem s) (out s).

Definition shift_flow {double : Type} (d : nat) (r : flow double) : flow double :=
  match r with
  | Continue s => Continue (shift d s)
  | Return e s => Return e (shift d s)
  end.

(** A list of writes, applied in order. *)
Fixpoint apply_writes {double : Type} (ws : list (addr * cell double))
    (m : gmap addr (cell double)) : gmap addr (cell double) :=
  match ws with
  | [] => m
  | (a, c) :: ws' => apply_writes ws' (<[a := c]> m)
  end.

(** The writes a list of occurrences stands for, in their order. *)
Definition writes_of {double : Type} (occs : list (occurrence double))
    : list (addr * cell double) :=
  map (fun x => (destination x, snd x)) occs.

(** The error and the placeholder of the usage line for a flag of kind
    [k] whose value is missing. *)
Definition missing_error (k : MicroFlagType) : MicroFlagError :=
  match k with
  | MICRO_FLAG_CHAR => MICRO_FLAG_ERROR_MISSING_CHAR
  | MICRO_FLAG_STR => MICRO_FLAG_ERROR_MISSING_STR
  | MICRO_FLAG_INT => MICRO_FLAG_ERROR_MISSING_INT
  | MICRO_FLAG_DOUBLE => MICRO_FLAG_ERROR_MISSING_DOUBLE
  | MICRO_FLAG_BOOL | _MICRO_FLAG_MAX => MICRO_FLAG_ERROR_UNKNOWN_TYPE
  end.

Definition usage_placeholder (k : MicroFlagType) : string :=
  match k with
  | MICRO_FLAG_CHAR => "<char>"
  | MICRO_FLAG_STR => "<string>"
  | MICRO_FLAG_INT => "<integer>"
  | MICRO_FLAG_DOUBLE => "<double>"
  | MICRO_FLAG_BOOL | _MICRO_FLAG_MAX => ""
  end.

(** The kinds that take a value. *)
Definition takes_value (k : MicroFlagType) : Prop :=
  k <> MICRO_FLAG_BOOL /\ k <> _MICRO_FLAG_MAX.

(** The text [main] prints for [--help]. *)
Definition example_help_text : string :=
  "example" ++ nl ++ "A sample application to showcase the library" ++ nl
  ++ nl ++ "Options:" ++ nl ++ concat_strings (map option_block example_flags).

(** The declaration of [-h] in the table of [main]. *)
Definition help_flag : MicroFlag :=
  mkFlag MICRO_FLAG_BOOL show_help (Some "-h") (Some "--help") "show help message".

(** ** The sample program (example.c, lines 17-55) *)

Section Example.

(** Besides [strtod]: what [printf] writes for a [double] under [%f], and
    the [double] the literal [123.123] stands for. *)
Context {double : Type}.
Variable strtod : string -> conversion double.
Variable show_f : double -> string.
Variable literal_123_123 : double.

(** The arguments of the four [printf] calls at the end of [main]. *)
Inductive printf_arg :=
  | PStr (s : option string)
  | PChar (c : ascii)
  | PInt (z : Z)
  | PDouble (d : double).

(** One conversion.  A conversion applied to an argument of another type
    has no defined result; it writes nothing here. *)
Definition show_conversion (c : ascii) (a : printf_arg) : string :=
  match a with
  | PStr s => if Ascii.eqb c "s" then show_arg s else ""
  | PChar x => if Ascii.eqb c "c" then String x EmptyString else ""
  | PInt z => if Ascii.eqb c "d" then NilZero.string_of_int (Z.to_int z) else ""
  | PDouble d => if Ascii.eqb c "f" then show_f d else ""
  end.

(** [printf] with the conversions [%s], [%c], [%d] and [%f]. *)
Fixpoint printf_typed (fmt : string) (args : list printf_arg) : string :=
  match fmt with
  | EmptyString => EmptyString
  | String "%"%char (String c rest) =>
      match args with
      | a :: args' => show_conversion c a ++ printf_typed rest args'
      | [] => printf_typed rest []
      end
  | String c rest => String c (printf_typed rest args)
  end.

(** The defaults set at lines 21-25. *)
Definition initial_args : gmap addr (cell double) :=
  <[show_help := CBool false]>
  (<[out_name := CStr "out"]>
  (<[a_char := CChar "A"]>
  (<[a_number := CInt 0]>
  (<[a_double := CDouble literal_123_123]> ∅)))).

(** The four lines written at lines 49-52. *)
Definition print_values (s : string) (c : ascii) (n : Z) (d : double) : string :=
  printf_typed ("Output file: %s" ++ nl) [PStr (Some s)]
  ++ printf_typed ("A char:      %c" ++ nl) [PChar c]
  ++ printf_typed ("A number:    %d" ++ nl) [PInt n]
  ++ printf_typed ("A double:    %f" ++ nl) [PDouble d].

(** [main (argc, argv)]: the exit status and the text on standard
    output.  Reading a variable that does not hold a value of its type
    has no result ([None]); that never happens ([main_exit_status]). *)
Definition main (argv : list string) : option (Z * string) :=
  match micro_flag_parse strtod example_flags argv initial_args with
  | None => None
  | Some (e, m, o) =>
      match e with
      | MICRO_FLAG_OK =>
          match m !! show_help with
          | Some (CBool true) =>
              match micro_flag_print_help "example"
                      "A sample application to showcase the library" example_flags with
              | Some (_, text) => Some (0%Z, o ++ text)
              | None => None
              end
          | Some (CBool false) =>
              match m !! out_name, m !! a_char, m !! a_number, m !! a_double with
              | Some (CStr s), Some (CChar c), Some (CInt n), Some (CDouble d) =>
                  Some (0%Z, o ++ print_values s c n d)
              | _, _, _, _ => None
              end
          | _ => None
          end
      | _ => Some (1%Z, o)
      end
  end.

End Example.

(** ** [%f] for binary64 values

    Six digits after the point, the exact value rounded to the nearest,
    ties to even, as glibc does. *)

Definition pad6 (s : string) : string :=
  concat_strings (replicate (6 - String.length s) "0") ++ s.

Definition format_f (x : Binary64.double) : string :=
  match x with
  | S754_zero s => (if s then "-" else "") ++ "0.000000"
  | S754_infinity s => if s then "-inf" else "inf"
  | S754_nan => "nan"
  | S754_finite s m e =>
      let n :=
        match e with
        | Zneg p =>
            let num := (Z.pos m * 1000000)%Z in
            let den := (2 ^ Z.pos p)%Z in
            let q := (num / den)%Z in
            let r := (num mod den)%Z in
            match (2 * r ?= den)%Z with
            | Gt => (q + 1)%Z
            | Eq => if Z.even q then q else (q + 1)%Z
            | Lt => q
            end
        | _ => (Z.pos m * 2 ^ e * 1000000)%Z
        end in
      (if s then "-" else "")
      ++ NilZero.string_of_uint (N.to_uint (Z.to_N (n / 1000000)))
      ++ "." ++ pad6 (NilZero.string_of_uint (N.to_uint (Z.to_N (n mod 1000000))))
  end.

(** [main] on binary64. *)
Definition main64 (argv : list string) : option (Z * string) :=
  main Binary64.strtod format_f (Binary64.of_decimal false 123123 (-3)) argv.

(** * Properties *)

(** ** Reading the argument vector *)

Lemma arg_lookup (argv : list string) (i : nat) (t : string) :
  argv !! i = Some t -> arg argv i = t.
Proof. intros H. unfold arg. now rewrite H. Qed.

Lemma arg_app_l (pre suf : list string) (i : nat) :
  i < length pre -> arg (pre ++ suf) i = arg pre i.
Proof. intros H. unfold arg. now rewrite lookup_app_l. Qed.

Lemma arg_middle (pre post : list string) (t : string) :
  arg (pre ++ t :: post) (length pre) = t.
Proof. apply arg_lookup. now rewrite list_lookup_middle. Qed.

Lemma arg_middle_S (pre post : list string) (t v : string) :
  arg (pre ++ t :: v :: post) (S (length pre)) = v.
Proof.
  apply arg_lookup.
  replace (pre ++ t :: v :: post)%list with ((pre ++ [t]) ++ v :: post)%list
    by now rewrite <- app_assoc.
  apply list_lookup_middle. rewrite length_app. simpl. lia.
Qed.

Lemma arg_in_tail (argv : list string) (i : nat) :
  1 <= i < length argv -> arg argv i ∈ tail argv.
Proof.
  intros [H1 H2]. destruct argv as [|a0 argv]; simpl in *; [lia|].
  destruct i as [|i]; [lia|]. unfold arg. simpl.
  destruct (argv !! i) as [t|] eqn:E.
  - simpl. apply list_elem_of_lookup. eauto.
  - apply lookup_ge_None in E. lia.
Qed.

(** ** Output lines *)

Lemma printf_unknown_flag (t : string) :
  printf ("Error parsing flags: unknown flag " ++ dquote ++ "%s" ++ dquote ++ nl) [Some t]
  = unknown_flag_line t.
Proof. reflexivity. Qed.

(** ** The help renderer *)

Lemma append_assoc (a b c : string) : (a ++ b) ++ c = a ++ (b ++ c).
Proof.
  induction a as [|x a IH]; [reflexivity|].
  change (String x ((a ++ b) ++ c) = String x (a ++ (b ++ c))). now rewrite IH.
Qed.

Lemma append_empty_r (a : string) : a ++ "" = a.
Proof.
  induction a as [|x a IH]; [reflexivity|].
  change (String x (a ++ "") = String x a). now rewrite IH.
Qed.

(** The table of line 201 holds the placeholder of each of the five
    kinds and nothing at the index of [_MICRO_FLAG_MAX]. *)
Lemma micro_flag_type_str_declared (t : MicroFlagType) :
  declared_kind t ->
  micro_flag_type_str !! type_index t = Some (placeholder_of t).
Proof. unfold declared_kind. destruct t; done. Qed.

Lemma micro_flag_type_str_past_end :
  micro_flag_type_str !! type_index _MICRO_FLAG_MAX = None.
Proof. reflexivity. Qed.

(** The [printf] of lines 324-329 writes the two lines of the flag. *)
Lemma printf_option_block (f : MicroFlag) :
  printf ("    %s%s%s %s" ++ nl ++ "        %s" ++ nl)
    [ (if bool_decide (short_name f <> None) then short_name f else Some "");
      Some (if bool_decide (long_name f <> None) && bool_decide (short_name f <> None)
            then "," else "");
      (if bool_decide (long_name f <> None) then long_name f else Some "");
      Some (placeholder_of (type f));
      Some (description f) ]
  = option_block f.
Proof.
  unfold option_block, option_line, description_line.
  destruct (short_name f) as [sn|], (long_name f) as [ln|]; simpl;
    rewrite ?append_assoc; simpl; rewrite ?append_assoc; reflexivity.
Qed.

Lemma print_flags_declared (flags : list MicroFlag) (o : string) :
  Forall (fun f => declared_kind (type f)) flags ->
  print_flags flags o = Some (o ++ concat_strings (map option_block flags)).
Proof.
  intros H. revert o. induction H as [|f flags Hf _ IH]; intros o.
  - simpl. now rewrite append_empty_r.
  - cbn [print_flags]. rewrite (micro_flag_type_str_declared _ Hf).
    rewrite IH, printf_option_block, append_assoc. done.
Qed.

(** ** Lists *)

Lemma filter_nil_Forall {A : Type} (p : A -> bool) (l : list A) :
  List.filter p l = [] -> Forall (fun y => p y = false) l.
Proof.
  induction l as [|a l IH]; simpl; [constructor|].
  destruct (p a) eqn:E; [discriminate|]. intros H. constructor; auto.
Qed.

Lemma filter_single_split {A : Type} (p : A -> bool) (l : list A) (x : A) :
  List.filter p l = [x] ->
  exists l1 l2, l = (l1 ++ x :: l2)%list /\ p x = true
    /\ Forall (fun y => p y = false) l1 /\ Forall (fun y => p y = false) l2.
Proof.
  induction l as [|a l IH]; simpl; [discriminate|].
  destruct (p a) eqn:E; intros H.
  - injection H as -> H. exists [], l. split_and!; try done.
    now apply filter_nil_Forall.
  - destruct (IH H) as (l1 & l2 & -> & Hx & H1 & H2).
    exists (a :: l1), l2. split_and!; try done. now constructor.
Qed.

Lemma existsb_false_Forall {A : Type} (p : A -> bool) (l : list A) :
  existsb p l = false -> Forall (fun y => p y = false) l.
Proof.
  induction l as [|a l IH]; simpl; [constructor|].
  intros H. apply orb_false_elim in H as [Ha Hl]. constructor; auto.
Qed.

(** ** [strtol] *)

(** [strtol] converts the integer the text starts with, clamped to the
    range of [long]; [endptr] stays at the start exactly when there is no
    such integer. *)
Lemma strtol_leading_int (v : string) :
  match leading_int v with
  | None => conv_end (strtol v) = 0
  | Some z =>
      conv_end (strtol v) <> 0
      /\ ((LONG_MIN <= z <= LONG_MAX)%Z ->
            conv_val (strtol v) = z /\ conv_erange (strtol v) = false)
      /\ ((LONG_MAX < z)%Z ->
            conv_val (strtol v) = LONG_MAX /\ conv_erange (strtol v) = true)
      /\ ((z < LONG_MIN)%Z ->
            conv_val (strtol v) = LONG_MIN /\ conv_erange (strtol v) = true)
  end.
Proof.
  unfold leading_int, strtol.
  destruct (skip_space v) as [nws s1].
  destruct (read_sign s1) as [[neg nsign] s2].
  destruct (read_digits s2 0%Z) as [[z nd] rest].
  destruct nd as [|nd]; [done|].
  set (z' := if neg then (- z)%Z else z).
  destruct (LONG_MAX <? z')%Z eqn:Hmax; [|destruct (z' <? LONG_MIN)%Z eqn:Hmin]; simpl;
    rewrite ?Z.ltb_lt, ?Z.ltb_ge in *; unfold LONG_MAX, LONG_MIN in *;
    (split; [lia|]); repeat split; lia.
Qed.

(** The test of lines 263-264 rejects a text exactly when it starts with
    no integer or with one outside the range of [int]; what is accepted
    is converted to that integer.  The width of [long] plays no part. *)
Lemma strtol_check (v : string) :
  let r := strtol v in
  let rejected := (conv_end r =? 0)%nat || conv_erange r
                  || (INT_MAX <? conv_val r)%Z || (conv_val r <? INT_MIN)%Z in
  match leading_int v with
  | None => rejected = true
  | Some z =>
      if decide (in_int_range z) then rejected = false /\ conv_val r = z
      else rejected = true
  end.
Proof.
  pose proof (strtol_leading_int v) as H. simpl.
  destruct (leading_int v) as [z|].
  - destruct H as (Hend & Hin & Hhi & Hlo).
    apply Nat.eqb_neq in Hend. rewrite Hend. simpl.
    unfold in_int_range, INT_MIN, INT_MAX, LONG_MIN, LONG_MAX in *.
    destruct (decide _) as [Hr|Hr].
    + destruct Hin as [-> ->]; [lia|]. simpl.
      split; [|done]. apply orb_false_intro; [apply Z.ltb_ge|apply Z.ltb_ge]; lia.
    + destruct (Z_lt_le_dec 9223372036854775807 z) as [Hbig|Hbig].
      { destruct (Hhi Hbig) as [_ ->]. done. }
      destruct (Z_lt_le_dec z (-9223372036854775808)) as [Hsmall|Hsmall].
      { destruct (Hlo Hsmall) as [_ ->]. done. }
      destruct Hin as [-> ->]; [lia|]. simpl.
      apply orb_true_iff. rewrite !Z.ltb_lt. lia.
  - rewrite H. done.
Qed.

Section Properties.

Context {double : Type}.
Variable strtod : string -> conversion double.

Implicit Types (s : state double) (m : gmap addr (cell double)) (f g : MicroFlag).
Implicit Types (flags fs : list MicroFlag) (argv pre suf post : list string).
Implicit Types (t v o : string).

(** ** One declaration *)

(** The switch moves [i] by at most one, keeps it below [argc] and never
    returns [MICRO_FLAG_OK]. *)
Lemma dispatch_continue argv f s s' :
  dispatch strtod argv f s = Continue s' ->
  pos s < length argv ->
  pos s <= pos s' < length argv /\ found s' = found s /\ out s' = out s.
Proof.
  unfold dispatch. intros H Hlt.
  destruct (type f); repeat case_match; simplify_eq; simpl;
    repeat match goal with
           | H : (_ <=? _)%nat = false |- _ => apply Nat.leb_gt in H
           end; repeat split; lia.
Qed.

Lemma dispatch_return argv f s e s' :
  dispatch strtod argv f s = Return e s' ->
  e <> MICRO_FLAG_OK /\ mem s' = mem s /\ pos s' = pos s.
Proof.
  unfold dispatch. intros H.
  destruct (type f); repeat case_match; simplify_eq; simpl; done.
Qed.

Lemma flag_body_continue argv f s s' :
  flag_body strtod argv f s = Continue s' ->
  pos s < length argv ->
  pos s <= pos s' < length argv /\ out s' = out s
  /\ (found s = true -> found s' = true)
  /\ (matches f (arg argv (pos s)) = true -> found s' = true)
  /\ (matches f (arg argv (pos s)) = false -> s' = s).
Proof.
  unfold flag_body. intros H Hlt.
  destruct (matches f (arg argv (pos s))) eqn:Hm.
  - apply dispatch_continue in H as (Hp & Hf & Ho); [|done].
    simpl in *. repeat split; try done; try lia.
  - simplify_eq. repeat split; try done; lia.
Qed.

Lemma flag_body_return argv f s e s' :
  flag_body strtod argv f s = Return e s' ->
  e <> MICRO_FLAG_OK /\ mem s' = mem s /\ pos s' = pos s
  /\ matches f (arg argv (pos s)) = true.
Proof.
  unfold flag_body. intros H.
  destruct (matches f (arg argv (pos s))) eqn:Hm; [|done].
  apply dispatch_return in H as (? & ? & ?). done.
Qed.

(** ** The inner loop *)

(** Every index the inner loop reaches is below [argc]. *)
Lemma scan_flags_in_bounds argv flags s s' :
  scan_flags strtod argv flags s = Continue s' ->
  pos s < length argv ->
  pos s <= pos s' < length argv /\ out s' = out s
  /\ (found s = true -> found s' = true).
Proof.
  revert s. induction flags as [|f flags IH]; intros s H Hlt; simpl in H.
  - simplify_eq. repeat split; try done; lia.
  - destruct (flag_body strtod argv f s) as [s1|e s1] eqn:Hb; [|done].
    apply flag_body_continue in Hb as (Hp & Ho & Hf & _); [|done].
    apply IH in H as (Hp' & Ho' & Hf'); [|lia].
    repeat split; try lia; try congruence. auto.
Qed.

Lemma scan_flags_return argv flags s e s' :
  scan_flags strtod argv flags s = Return e s' -> e <> MICRO_FLAG_OK.
Proof.
  revert s. induction flags as [|f flags IH]; intros s H; simpl in H; [done|].
  destruct (flag_body strtod argv f s) as [s1|e1 s1] eqn:Hb.
  - eauto.
  - simplify_eq. now apply flag_body_return in Hb.
Qed.

(** ** The outer loop *)

Lemma parse_loop_fuel fuel fuel' flags argv i m o :
  length argv - i <= fuel -> length argv - i <= fuel' ->
  parse_loop strtod fuel flags argv i m o = parse_loop strtod fuel' flags argv i m o.
Proof.
  revert fuel' i m o.
  induction fuel as [|fuel IH]; intros fuel' i m o H H'.
  - assert (length argv <= i) as Hle by lia. apply Nat.leb_le in Hle.
    destruct fuel'; simpl; now rewrite Hle.
  - destruct fuel' as [|fuel'].
    + assert (length argv <= i) as Hle by lia. apply Nat.leb_le in Hle.
      simpl. now rewrite Hle.
    + simpl. destruct (length argv <=? i)%nat eqn:Hle; [done|].
      apply Nat.leb_gt in Hle.
      destruct (scan_flags strtod argv flags (mkState i false m o)) as [s|e s] eqn:Hs; [|done].
      destruct (negb (found s)); [done|].
      apply scan_flags_in_bounds in Hs as (Hp & _); [|done]. simpl in Hp.
      apply IH; lia.
Qed.

(** Any fuel from [argc - i] on gives the result of [parse_from]. *)
Lemma parse_loop_enough_fuel fuel flags argv i m o :
  length argv - i <= fuel ->
  parse_loop strtod fuel flags argv i m o = parse_from strtod flags argv i m o.
Proof. intros H. unfold parse_from. now apply parse_loop_fuel. Qed.

(** The outer loop, one iteration unfolded. *)
Lemma parse_from_unfold flags argv i m o :
  parse_from strtod flags argv i m o =
  if (length argv <=? i)%nat then Some (MICRO_FLAG_OK, m, o)
  else after_scan strtod flags argv (scan_flags strtod argv flags (mkState i false m o)).
Proof.
  unfold parse_from at 1.
  destruct (length argv - i) as [|fuel] eqn:Hf.
  - assert (length argv <= i) as Hle by lia. apply Nat.leb_le in Hle.
    simpl. now rewrite Hle.
  - simpl. destruct (length argv <=? i)%nat eqn:Hle; [done|].
    apply Nat.leb_gt in Hle.
    destruct (scan_flags strtod argv flags (mkState i false m o)) as [s|e s] eqn:Hs; [|done].
    simpl. destruct (negb (found s)); [done|].
    apply scan_flags_in_bounds in Hs as (Hp & _); [|done]. simpl in Hp.
    apply parse_loop_enough_fuel. lia.
Qed.

Lemma parse_from_end flags argv i m o :
  length argv <= i -> parse_from strtod flags argv i m o = Some (MICRO_FLAG_OK, m, o).
Proof.
  intros H. rewrite parse_from_unfold. apply Nat.leb_le in H. now rewrite H.
Qed.

(** The parser returns on every input. *)
Lemma parse_from_returns flags argv i m o :
  exists r, parse_from strtod flags argv i m o = Some r.
Proof.
  remember (length argv - i) as n eqn:Hn. revert i m o Hn.
  induction n as [n IH] using lt_wf_ind. intros i m o Hn.
  rewrite parse_from_unfold.
  destruct (length argv <=? i)%nat eqn:Hle; [eauto|].
  apply Nat.leb_gt in Hle.
  destruct (scan_flags strtod argv flags (mkState i false m o)) as [s|e s] eqn:Hs; simpl; [|eauto].
  destruct (negb (found s)); [eauto|].
  apply scan_flags_in_bounds in Hs as (Hp & _); [|done]. simpl in Hp.
  eapply (IH (length argv - S (pos s))); [lia|done].
Qed.

Lemma micro_flag_parse_returns flags argv m :
  exists r, micro_flag_parse strtod flags argv m = Some r.
Proof. apply parse_from_returns. Qed.

(** ** Diagnostics *)

Lemma dispatch_return_out argv f s e s' :
  dispatch strtod argv f s = Return e s' ->
  exists text, out s' = out s ++ text /\ diagnostic_of [f] argv e text.
Proof.
  unfold dispatch. intros H.
  destruct (type f); repeat case_match; simplify_eq; simpl;
    try (eexists; split; [reflexivity|]; simpl; exists f; split; [left|reflexivity]).
  exists "". split; [now rewrite append_empty_r|done].
Qed.

Lemma diagnostic_of_mono flags flags' argv e text :
  (forall f, f ∈ flags -> f ∈ flags') ->
  diagnostic_of flags argv e text -> diagnostic_of flags' argv e text.
Proof.
  intros Hsub. destruct e; simpl; try done;
    intros (f & Hf & ->); exists f; auto.
Qed.

Lemma scan_flags_return_out argv flags s e s' :
  scan_flags strtod argv flags s = Return e s' ->
  pos s < length argv ->
  exists text, out s' = out s ++ text /\ diagnostic_of flags argv e text.
Proof.
  revert s. induction flags as [|f flags IH]; intros s H Hlt; simpl in H; [done|].
  destruct (flag_body strtod argv f s) as [s1|e1 s1] eqn:Hb.
  - apply flag_body_continue in Hb as (Hp & Ho & _); [|done].
    destruct (IH s1 H) as (text & Htext & Hd); [lia|].
    exists text. split; [congruence|].
    eapply diagnostic_of_mono; [|exact Hd]. intros g Hg. now right.
  - simplify_eq. unfold flag_body in Hb.
    destruct (matches f (arg argv (pos s))); [|done].
    apply dispatch_return_out in Hb as (text & Htext & Hd).
    exists text. split; [exact Htext|].
    eapply diagnostic_of_mono; [|exact Hd].
    intros g Hg. apply list_elem_of_singleton in Hg as ->. left.
Qed.

Lemma parse_from_diagnostic flags argv i m o e m' o' :
  parse_from strtod flags argv i m o = Some (e, m', o') ->
  exists text, o' = o ++ text /\ diagnostic_of flags argv e text.
Proof.
  remember (length argv - i) as n eqn:Hn. revert i m o Hn.
  induction n as [n IH] using lt_wf_ind. intros i m o Hn H.
  rewrite parse_from_unfold in H.
  destruct (length argv <=? i)%nat eqn:Hle.
  { simplify_eq. exists "". split; [now rewrite append_empty_r|done]. }
  apply Nat.leb_gt in Hle.
  destruct (scan_flags strtod argv flags (mkState i false m o)) as [s|e1 s] eqn:Hs;
    simpl in H.
  - pose proof Hs as Hb. apply scan_flags_in_bounds in Hb as (Hp & Ho & _); [|done].
    simpl in Hp, Ho.
    destruct (found s); simpl in H.
    + rewrite Ho in H. eapply (IH (length argv - S (pos s))); [lia|done|exact H].
    + injection H as <- <- <-. simpl. rewrite Ho. eexists. split; [reflexivity|].
      simpl. exists (arg argv (pos s)). split; [|reflexivity].
      unfold arg. destruct (argv !! pos s) as [t|] eqn:E.
      * simpl. apply list_elem_of_lookup. eauto.
      * apply lookup_ge_None in E. lia.
  - simplify_eq. apply scan_flags_return_out in Hs; [|done]. exact Hs.
Qed.

(** X3.  What a call has printed when it returns: nothing on success;
    on an error one line, the usage line of a declared flag with the
    placeholder of the error's kind, or the unknown-flag line of a token
    of the argument vector; nothing for
    [MICRO_FLAG_ERROR_UNKNOWN_TYPE].  [_MICRO_FLAG_ERROR_MAX] is never
    returned. *)
Lemma micro_flag_parse_diagnostic flags argv m e m' o' :
  micro_flag_parse strtod flags argv m = Some (e, m', o') ->
  diagnostic_of flags argv e o'.
Proof.
  intros H. apply parse_from_diagnostic in H as (text & -> & Hd). exact Hd.
Qed.

(** ** Extending the argument vector

    A run that completes on [pre] is the beginning of the run on
    [pre ++ suf]: the latter reaches index [length pre] with the storage
    and output the former ends with. *)

Lemma dispatch_extend pre suf f s s' :
  pos s < length pre ->
  dispatch strtod pre f s = Continue s' ->
  dispatch strtod (pre ++ suf) f s = Continue s'.
Proof.
  unfold dispatch. intros Hlt H.
  destruct (type f); try done;
    (destruct (length pre <=? pos s + 1)%nat eqn:E; [done|];
     apply Nat.leb_gt in E;
     assert ((length (pre ++ suf) <=? pos s + 1)%nat = false) as ->
       by (apply Nat.leb_gt; rewrite length_app; lia);
     rewrite arg_app_l by lia; exact H).
Qed.

Lemma flag_body_extend pre suf f s s' :
  pos s < length pre ->
  flag_body strtod pre f s = Continue s' ->
  flag_body strtod (pre ++ suf) f s = Continue s'.
Proof.
  unfold flag_body. intros Hlt H. rewrite arg_app_l by done.
  destruct (matches f (arg pre (pos s))); [|done].
  now apply dispatch_extend.
Qed.

Lemma scan_flags_extend pre suf flags s s' :
  pos s < length pre ->
  scan_flags strtod pre flags s = Continue s' ->
  scan_flags strtod (pre ++ suf) flags s = Continue s'.
Proof.
  revert s. induction flags as [|f flags IH]; intros s Hlt H; simpl in *; [done|].
  destruct (flag_body strtod pre f s) as [s1|e s1] eqn:Hb; [|done].
  rewrite (flag_body_extend _ _ _ _ _ Hlt Hb).
  apply flag_body_continue in Hb as (Hp & _); [|done].
  apply IH; [lia|done].
Qed.

Lemma parse_from_extend flags pre suf i m o m1 o1 :
  i <= length pre ->
  parse_from strtod flags pre i m o = Some (MICRO_FLAG_OK, m1, o1) ->
  parse_from strtod flags (pre ++ suf) i m o
  = parse_from strtod flags (pre ++ suf) (length pre) m1 o1.
Proof.
  remember (length pre - i) as n eqn:Hn. revert i m o Hn.
  induction n as [n IH] using lt_wf_ind. intros i m o Hn Hi H.
  rewrite parse_from_unfold in H.
  destruct (length pre <=? i)%nat eqn:Hle.
  - apply Nat.leb_le in Hle. assert (i = length pre) as -> by lia. now simplify_eq.
  - apply Nat.leb_gt in Hle.
    destruct (scan_flags strtod pre flags (mkState i false m o)) as [s|e s] eqn:Hs; simpl in H.
    + destruct (found s) eqn:Hf; simpl in H; [|done].
      pose proof (scan_flags_extend pre suf flags (mkState i false m o) s Hle Hs) as Hs'.
      apply scan_flags_in_bounds in Hs as (Hp & _); [|done]. simpl in Hp.
      rewrite (parse_from_unfold flags (pre ++ suf) i).
      assert ((length (pre ++ suf) <=? i)%nat = false) as ->
        by (apply Nat.leb_gt; rewrite length_app; lia).
      rewrite Hs'. simpl. rewrite Hf. simpl.
      eapply (IH (length pre - S (pos s))); [lia|done|lia|done].
    + apply scan_flags_return in Hs. now simplify_eq.
Qed.

(** The scan reaches the token after [pre] when the call on [pre] alone
    succeeds. *)
Lemma micro_flag_parse_extend flags pre suf m m1 o1 :
  pre <> [] ->
  micro_flag_parse strtod flags pre m = Some (MICRO_FLAG_OK, m1, o1) ->
  micro_flag_parse strtod flags (pre ++ suf) m
  = parse_from strtod flags (pre ++ suf) (length pre) m1 o1.
Proof.
  intros Hne H. apply parse_from_extend; [|done].
  destruct pre; [done|simpl; lia].
Qed.

(** What the scan does at the token [t] after [pre]. *)
Lemma micro_flag_parse_at flags pre t post m m1 o1 :
  pre <> [] ->
  micro_flag_parse strtod flags pre m = Some (MICRO_FLAG_OK, m1, o1) ->
  micro_flag_parse strtod flags (pre ++ t :: post) m
  = after_scan strtod flags (pre ++ t :: post)
      (scan_flags strtod (pre ++ t :: post) flags (mkState (length pre) false m1 o1)).
Proof.
  intros Hne H. rewrite (micro_flag_parse_extend _ _ _ _ _ _ Hne H).
  rewrite parse_from_unfold.
  assert ((length (pre ++ t :: post) <=? length pre)%nat = false) as ->
    by (apply Nat.leb_gt; rewrite length_app; simpl; lia).
  done.
Qed.

(** ** What is written, and where *)

(** A declaration writes nowhere but to its own destination, and only a
    cell of its own kind. *)
Lemma dispatch_mem argv f s :
  mem (flow_state (dispatch strtod argv f s)) = mem s
  \/ exists w : cell double, written_by f w
       /\ mem (flow_state (dispatch strtod argv f s)) = <[value f := w]> (mem s).
Proof.
  unfold dispatch, written_by.
  destruct (type f); simpl.
  - right. now exists (CBool true).
  - repeat case_match; simpl; auto. right. now eexists (CChar _).
  - repeat case_match; simpl; auto. right. now eexists (CStr _).
  - destruct (length argv <=? pos s + 1)%nat; simpl; auto.
    destruct (_ || _) eqn:E; simpl; auto.
    right. eexists (CInt _). split; [|done].
    repeat (apply orb_false_elim in E as [E ?]).
    unfold in_int_range. lia.
  - repeat case_match; simpl; auto. right. now eexists (CDouble _).
  - auto.
Qed.

Section Invariant.

(** A property of the storage that every write of a declaration matching
    some token after [argv[0]] keeps. *)
Variable flags : list MicroFlag.
Variable argv : list string.
Variable Inv : gmap addr (cell double) -> Prop.
Hypothesis Inv_write : forall f t m (w : cell double),
  f ∈ flags -> t ∈ tail argv -> matches f t = true -> written_by f w ->
  Inv m -> Inv (<[value f := w]> m).

Lemma flag_body_invariant f s :
  f ∈ flags -> 1 <= pos s < length argv -> Inv (mem s) ->
  Inv (mem (flow_state (flag_body strtod argv f s))).
Proof.
  intros Hf Hp HI. unfold flag_body.
  destruct (matches f (arg argv (pos s))) eqn:Hm; [|done].
  destruct (dispatch_mem argv f (set_found s)) as [->|(v & Hv & ->)]; [done|].
  simpl. eapply Inv_write; eauto. now apply arg_in_tail.
Qed.

Lemma scan_flags_invariant fl s :
  (forall f, f ∈ fl -> f ∈ flags) -> 1 <= pos s < length argv -> Inv (mem s) ->
  Inv (mem (flow_state (scan_flags strtod argv fl s))).
Proof.
  revert s. induction fl as [|f fl IH]; intros s Hsub Hp HI; simpl; [done|].
  assert (f ∈ flags) as Hf by (apply Hsub; left).
  pose proof (flag_body_invariant f s Hf Hp HI) as HI'.
  destruct (flag_body strtod argv f s) as [s1|e s1] eqn:Hb; [|done].
  apply flag_body_continue in Hb as (Hp' & _); [|lia].
  apply IH; [|lia|done]. intros g Hg. apply Hsub. now right.
Qed.

Lemma parse_from_invariant i m o e m' o' :
  1 <= i -> Inv m ->
  parse_from strtod flags argv i m o = Some (e, m', o') -> Inv m'.
Proof.
  remember (length argv - i) as n eqn:Hn. revert i m o Hn.
  induction n as [n IH] using lt_wf_ind. intros i m o Hn Hi HI H.
  rewrite parse_from_unfold in H.
  destruct (length argv <=? i)%nat eqn:Hle; [now simplify_eq|].
  apply Nat.leb_gt in Hle.
  pose proof (scan_flags_invariant flags (mkState i false m o)
                (fun _ H => H) (conj Hi Hle) HI) as HI'.
  destruct (scan_flags strtod argv flags (mkState i false m o)) as [s|e1 s] eqn:Hs;
    simpl in H, HI'; [|now simplify_eq].
  destruct (found s); simpl in H; [|now simplify_eq].
  apply scan_flags_in_bounds in Hs as (Hp & _); [|done]. simpl in Hp.
  eapply (IH (length argv - S (pos s))); [lia|done|lia|exact HI'|exact H].
Qed.

Lemma after_scan_invariant (r : flow double) e m' o' :
  Inv (mem (flow_state r)) ->
  after_scan strtod flags argv r = Some (e, m', o') -> Inv m'.
Proof.
  destruct r as [s|e1 s]; simpl; intros HI H; [|now simplify_eq].
  destruct (found s); simpl in H; [|now simplify_eq].
  eapply parse_from_invariant; [|exact HI|exact H]. lia.
Qed.

Lemma micro_flag_parse_invariant m e m' o' :
  Inv m -> micro_flag_parse strtod flags argv m = Some (e, m', o') -> Inv m'.
Proof. intros HI H. eapply parse_from_invariant; [|exact HI|exact H]. lia. Qed.

End Invariant.

(** ** The inner loop at a given token *)

Lemma scan_flags_no_match argv flags s :
  (forall f, f ∈ flags -> matches f (arg argv (pos s)) = false) ->
  scan_flags strtod argv flags s = Continue s.
Proof.
  induction flags as [|f flags IH]; intros H; simpl; [done|].
  unfold flag_body. rewrite H by left. apply IH. intros g Hg. apply H. now right.
Qed.

Lemma scan_flags_first_match argv fs1 f fs2 s :
  (forall g, g ∈ fs1 -> matches g (arg argv (pos s)) = false) ->
  matches f (arg argv (pos s)) = true ->
  scan_flags strtod argv (fs1 ++ f :: fs2) s =
  match dispatch strtod argv f (set_found s) with
  | Continue s' => scan_flags strtod argv fs2 s'
  | Return e s' => Return e s'
  end.
Proof.
  induction fs1 as [|g fs1 IH]; intros H Hm; simpl.
  - unfold flag_body. now rewrite Hm.
  - unfold flag_body at 1. rewrite H by left.
    apply IH; [|done]. intros g' Hg'. apply H. now right.
Qed.

(** When every declaration matching the token is a Bool flag, the inner
    loop runs to its end without moving [i], and every Bool flag that
    matches has been set. *)
Lemma scan_flags_bool argv flags s :
  (forall f, f ∈ flags -> matches f (arg argv (pos s)) = true ->
             type f = MICRO_FLAG_BOOL) ->
  exists s', scan_flags strtod argv flags s = Continue s'
    /\ pos s' = pos s /\ out s' = out s
    /\ (found s = true -> found s' = true)
    /\ (forall f, f ∈ flags -> matches f (arg argv (pos s)) = true ->
          found s' = true /\ mem s' !! value f = Some (CBool true))
    /\ (forall a, mem s !! a = Some (CBool true) -> mem s' !! a = Some (CBool true))
    /\ (forall a, (forall f, f ∈ flags -> matches f (arg argv (pos s)) = true ->
                     value f <> a) -> mem s' !! a = mem s !! a).
Proof.
  revert s. induction flags as [|f flags IH]; intros s H; simpl.
  - exists s. split_and!; try done. intros f Hf. inversion Hf.
  - unfold flag_body.
    destruct (matches f (arg argv (pos s))) eqn:Hm.
    + unfold dispatch. rewrite (H f) by (done || left). simpl.
      set (s1 := store (value f) (CBool true) (set_found s)).
      destruct (IH s1) as (s' & Hs & Hp & Ho & Hf & Hset & Hkeep & Hframe).
      { intros g Hg. apply H. now right. }
      exists s'. split_and!; try done.
      * intros _. now apply Hf.
      * intros g Hg Hmg. apply elem_of_cons in Hg as [->|Hg]; [|now apply Hset].
        split; [now apply Hf|]. apply Hkeep. simpl. apply lookup_insert_eq.
      * intros a Ha. apply Hkeep. simpl.
        destruct (decide (value f = a)) as [->|Hne];
          [apply lookup_insert_eq|now rewrite lookup_insert_ne].
      * intros a Ha. rewrite Hframe.
        -- simpl. apply lookup_insert_ne. apply Ha; [left|done].
        -- intros g Hg. apply Ha. now right.
    + destruct (IH s) as (s' & Hs & Hp & Ho & Hf & Hset & Hkeep & Hframe).
      { intros g Hg. apply H. now right. }
      exists s'. split_and!; try done.
      * intros g Hg Hmg. apply elem_of_cons in Hg as [->|Hg]; [congruence|now apply Hset].
      * intros a Ha. apply Hframe. intros g Hg. apply Ha. now right.
Qed.

Lemma scan_flags_app argv fs1 fs2 s :
  scan_flags strtod argv (fs1 ++ fs2) s =
  match scan_flags strtod argv fs1 s with
  | Continue s' => scan_flags strtod argv fs2 s'
  | Return e s' => Return e s'
  end.
Proof.
  revert s. induction fs1 as [|f fs1 IH]; intros s; simpl; [done|].
  destruct (flag_body strtod argv f s); [apply IH|done].
Qed.

(** The inner loop at the token after [pre], when [f] is the first
    declaration that matches it. *)
Lemma scan_flags_at_first_match pre t post fs1 f fs2 m1 o1 :
  Forall (fun g => matches g t = false) fs1 ->
  matches f t = true ->
  scan_flags strtod (pre ++ t :: post) (fs1 ++ f :: fs2) (mkState (length pre) false m1 o1) =
  match dispatch strtod (pre ++ t :: post) f (mkState (length pre) true m1 o1) with
  | Continue s' => scan_flags strtod (pre ++ t :: post) fs2 s'
  | Return e s' => Return e s'
  end.
Proof.
  intros Hno Hm. rewrite scan_flags_first_match; simpl; rewrite ?arg_middle; try done.
  intros g Hg. rewrite Forall_forall in Hno. now apply Hno.
Qed.

(** Leaving the inner loop at the value token, with nothing more matched:
    the outer loop goes on two indices after the flag. *)
Lemma after_value_no_match flags pre t v post fs2 m2 o1 :
  Forall (fun g => matches g v = false) fs2 ->
  after_scan strtod flags (pre ++ t :: v :: post)
    (scan_flags strtod (pre ++ t :: v :: post) fs2 (mkState (S (length pre)) true m2 o1))
  = parse_from strtod flags (pre ++ t :: v :: post) (length pre + 2) m2 o1.
Proof.
  intros Hno. rewrite scan_flags_no_match.
  - simpl. f_equal. lia.
  - simpl. rewrite arg_middle_S. intros g Hg.
    rewrite Forall_forall in Hno. now apply Hno.
Qed.

(** ** The declarations matched during a run *)

(** A matched declaration is in the table and has one of its names among
    the tokens after [argv[0]]. *)
Lemma scan_matched_sound argv flags s g :
  g ∈ scan_matched strtod argv flags s ->
  1 <= pos s < length argv ->
  g ∈ flags /\ exists t, t ∈ tail argv /\ matches g t = true.
Proof.
  revert s. induction flags as [|f flags IH]; intros s Hg Hp; simpl in Hg.
  { inversion Hg. }
  destruct (matches f (arg argv (pos s))) eqn:Hm.
  - apply elem_of_cons in Hg as [->|Hg].
    + split; [left|]. exists (arg argv (pos s)). split; [now apply arg_in_tail|done].
    + destruct (dispatch strtod argv f (set_found s)) as [s1|e s1] eqn:Hd;
        [|inversion Hg].
      apply dispatch_continue in Hd as (Hp1 & _); [|simpl; lia]. simpl in Hp1.
      destruct (IH s1 Hg) as [Hin Ht]; [lia|]. split; [now right|exact Ht].
  - destruct (IH s Hg Hp) as [Hin Ht]. split; [now right|exact Ht].
Qed.

Lemma matched_loop_sound fuel flags argv i m o g :
  g ∈ matched_loop strtod fuel flags argv i m o ->
  1 <= i ->
  g ∈ flags /\ exists t, t ∈ tail argv /\ matches g t = true.
Proof.
  revert i m o. induction fuel as [|fuel IH]; intros i m o Hg Hi; simpl in Hg.
  { destruct (length argv <=? i)%nat; inversion Hg. }
  destruct (length argv <=? i)%nat eqn:Hle; [inversion Hg|].
  apply Nat.leb_gt in Hle. apply elem_of_app in Hg as [Hg|Hg].
  - eapply scan_matched_sound; [exact Hg|simpl; lia].
  - destruct (scan_flags strtod argv flags (mkState i false m o)) as [s|e s] eqn:Hs;
      [|inversion Hg].
    destruct (found s); [|inversion Hg].
    eapply IH; [exact Hg|lia].
Qed.

(** The inner loop leaves alone every address that is not the
    destination of a declaration it matches. *)
Lemma scan_matched_frame (a : addr) argv flags s :
  Forall (fun g => value g <> a) (scan_matched strtod argv flags s) ->
  mem (flow_state (scan_flags strtod argv flags s)) !! a = mem s !! a.
Proof.
  revert s. induction flags as [|f flags IH]; intros s H; simpl in *; [done|].
  unfold flag_body. destruct (matches f (arg argv (pos s))) eqn:Hm; [|now apply IH].
  apply Forall_cons in H as [Hf H].
  assert (mem (flow_state (dispatch strtod argv f (set_found s))) !! a = mem s !! a) as Hd.
  { destruct (dispatch_mem argv f (set_found s)) as [->|(w & _ & ->)]; [done|].
    simpl. now rewrite lookup_insert_ne. }
  destruct (dispatch strtod argv f (set_found s)) as [s1|e s1]; simpl in Hd; [|done].
  rewrite IH; done.
Qed.

Lemma matched_loop_frame (a : addr) fuel flags argv i m o e m' o' :
  Forall (fun g => value g <> a) (matched_loop strtod fuel flags argv i m o) ->
  parse_loop strtod fuel flags argv i m o = Some (e, m', o') ->
  m' !! a = m !! a.
Proof.
  revert i m o. induction fuel as [|fuel IH]; intros i m o H Hrun; simpl in *.
  { destruct (length argv <=? i)%nat; now simplify_eq. }
  destruct (length argv <=? i)%nat; [now simplify_eq|].
  apply Forall_app in H as [Hscan Hrest].
  pose proof (scan_matched_frame a argv flags _ Hscan) as Hmem. simpl in Hmem.
  destruct (scan_flags strtod argv flags (mkState i false m o)) as [s|e1 s];
    simpl in Hmem; [|now simplify_eq].
  destruct (found s); simpl in Hrun; [|now simplify_eq].
  rewrite <- Hmem. apply (IH (S (pos s)) (mem s) (out s)); [exact Hrest|exact Hrun].
Qed.

(** Where only Bool flags point to the destination of [f], it holds
    [true] from the moment [f] is matched. *)
Lemma scan_matched_set flags argv fl s f :
  (forall g, g ∈ fl -> g ∈ flags) ->
  Forall (fun g => value g = value f -> type g = MICRO_FLAG_BOOL) flags ->
  type f = MICRO_FLAG_BOOL ->
  1 <= pos s < length argv ->
  f ∈ scan_matched strtod argv fl s \/ mem s !! value f = Some (CBool true) ->
  mem (flow_state (scan_flags strtod argv fl s)) !! value f = Some (CBool true).
Proof.
  intros Hsub Halias Hty. rewrite Forall_forall in Halias.
  assert (forall g m0 (w : cell double),
            g ∈ flags -> written_by g w -> m0 !! value f = Some (CBool true) ->
            <[value g := w]> m0 !! value f = Some (CBool true)) as Hkeep.
  { intros g m0 w Hg Hw H0.
    destruct (decide (value g = value f)) as [Heq|Hneq];
      [|now rewrite lookup_insert_ne].
    pose proof (Halias g Hg Heq) as Hgty.
    unfold written_by in Hw. rewrite Hgty in Hw.
    destruct w; try done. subst. rewrite Heq. apply lookup_insert_eq. }
  revert s Hsub. induction fl as [|f0 fl IH]; intros s Hsub Hp H; simpl in *.
  { destruct H as [H|H]; [inversion H|done]. }
  assert (f0 ∈ flags) as Hf0 by (apply Hsub; left).
  assert (forall g, g ∈ fl -> g ∈ flags) as Hsub' by (intros g Hg; apply Hsub; now right).
  unfold flag_body. destruct (matches f0 (arg argv (pos s))) eqn:Hm.
  - assert (f = f0
            \/ f ∈ match dispatch strtod argv f0 (set_found s) with
                   | Continue s' => scan_matched strtod argv fl s'
                   | Return _ _ => []
                   end
            \/ mem s !! value f = Some (CBool true)) as Hcase.
    { destruct H as [H|H]; [|auto]. apply elem_of_cons in H as [H|H]; auto. }
    destruct Hcase as [<-|Hcase].
    + unfold dispatch. rewrite Hty. apply IH; [done|simpl; lia|].
      right. simpl. apply lookup_insert_eq.
    + pose proof (dispatch_mem argv f0 (set_found s)) as Hdm.
      destruct (dispatch strtod argv f0 (set_found s)) as [s1|e s1] eqn:Hd;
        simpl in Hdm |- *.
      * apply dispatch_continue in Hd as (Hp1 & _); [|simpl; lia]. simpl in Hp1.
        apply IH; [done|lia|]. destruct Hcase as [Hin|Htrue]; [now left|right].
        destruct Hdm as [->|(w & Hw & ->)]; [done|]. now apply Hkeep.
      * destruct Hcase as [Hin|Htrue]; [inversion Hin|].
        apply dispatch_return in Hd as (_ & Hmem & _). simpl in Hmem. now rewrite Hmem.
  - apply IH; [done|done|]. destruct H as [H|H]; [now left|now right].
Qed.

Lemma matched_loop_set fuel flags argv i m o e m' o' f :
  Forall (fun g => value g = value f -> type g = MICRO_FLAG_BOOL) flags ->
  type f = MICRO_FLAG_BOOL ->
  1 <= i ->
  f ∈ matched_loop strtod fuel flags argv i m o \/ m !! value f = Some (CBool true) ->
  parse_loop strtod fuel flags argv i m o = Some (e, m', o') ->
  m' !! value f = Some (CBool true).
Proof.
  intros Halias Hty. revert i m o.
  induction fuel as [|fuel IH]; intros i m o Hi H Hrun; simpl in *.
  { destruct (length argv <=? i)%nat; [|done].
    simplify_eq. destruct H as [H|H]; [inversion H|done]. }
  destruct (length argv <=? i)%nat eqn:Hle.
  { simplify_eq. destruct H as [H|H]; [inversion H|done]. }
  apply Nat.leb_gt in Hle.
  assert (f ∈ scan_matched strtod argv flags (mkState i false m o)
          \/ m !! value f = Some (CBool true)
          \/ f ∈ match scan_flags strtod argv flags (mkState i false m o) with
                 | Continue s =>
                     if found s
                     then matched_loop strtod fuel flags argv (S (pos s)) (mem s) (out s)
                     else []
                 | Return _ _ => []
                 end) as Hcase.
  { destruct H as [H|H]; [|auto]. apply elem_of_app in H as [H|H]; auto. }
  assert (f ∈ scan_matched strtod argv flags (mkState i false m o)
          \/ m !! value f = Some (CBool true) ->
          mem (flow_state (scan_flags strtod argv flags (mkState i false m o))) !! value f
          = Some (CBool true)) as Hscan.
  { intros Hc. apply (scan_matched_set flags argv flags _ f); try done; simpl; lia. }
  destruct (scan_flags strtod argv flags (mkState i false m o)) as [s|e1 s] eqn:Hs;
    simpl in Hscan.
  - destruct (found s); simpl in Hrun.
    + apply (IH (S (pos s)) (mem s) (out s)); [lia| |exact Hrun].
      destruct Hcase as [Hc|[Hc|Hc]]; [right; auto|right; auto|now left].
    + simplify_eq. simpl.
      destruct Hcase as [Hc|[Hc|Hc]]; [auto|auto|inversion Hc].
  - simplify_eq. destruct Hcase as [Hc|[Hc|Hc]]; [auto|auto|inversion Hc].
Qed.

(** ** Bool flags and untouched destinations, in terms of tokens *)

Lemma matched_flags_sound flags argv m g :
  g ∈ matched_flags strtod flags argv m ->
  g ∈ flags /\ exists t, t ∈ tail argv /\ matches g t = true.
Proof. intros H. eapply matched_loop_sound; [exact H|lia]. Qed.

(** X13.  A destination is left as the caller set it, however the call
    ends, when no token after [argv[0]] is a name of a declaration
    pointing to it. *)
Lemma unmatched_destination_untouched flags (a : addr) argv m e m' o' :
  Forall (fun g => value g = a ->
            Forall (fun t => matches g t = false) (tail argv)) flags ->
  micro_flag_parse strtod flags argv m = Some (e, m', o') ->
  m' !! a = m !! a.
Proof.
  intros Hframe Hrun. eapply (matched_loop_frame a); [|exact Hrun].
  apply Forall_forall. intros g Hg Heq.
  apply (matched_loop_sound _ flags argv 1 m "" g) in Hg as (Hin & t & Ht & Hm); [|lia].
  rewrite Forall_forall in Hframe. pose proof (Hframe g Hin Heq) as Hnone.
  rewrite Forall_forall in Hnone. rewrite (Hnone t Ht) in Hm. done.
Qed.

(** X14.  A Bool flag [f] whose name is the token [t] the scan has
    reached is written [true], provided the declarations before [f] in
    the table that match [t] are Bool flags as well; its destination
    still holds [true] when the call returns, also with an error on a
    later token, if only Bool flags point to it. *)
Lemma bool_flag_at_token_set flags f fs1 fs2 pre t post m m1 o1 e m' o' :
  flags = (fs1 ++ f :: fs2)%list ->
  type f = MICRO_FLAG_BOOL ->
  matches f t = true ->
  Forall (fun g => matches g t = true -> type g = MICRO_FLAG_BOOL) fs1 ->
  Forall (fun g => value g = value f -> type g = MICRO_FLAG_BOOL) flags ->
  pre <> [] ->
  micro_flag_parse strtod flags pre m = Some (MICRO_FLAG_OK, m1, o1) ->
  micro_flag_parse strtod flags (pre ++ t :: post) m = Some (e, m', o') ->
  m' !! value f = Some (CBool true).
Proof.
  intros Hfl Hty Hm Hbefore Halias Hne Hpre Hrun.
  rewrite (micro_flag_parse_at flags pre t post m m1 o1 Hne Hpre) in Hrun.
  assert (forall g (t' : string) m0 (w : cell double),
            g ∈ flags -> t' ∈ tail (pre ++ t :: post) -> matches g t' = true ->
            written_by g w -> m0 !! value f = Some (CBool true) ->
            <[value g := w]> m0 !! value f = Some (CBool true)) as Hwrite.
  { intros g t' m0 w Hg _ _ Hw H0.
    destruct (decide (value g = value f)) as [Heq|Hneq];
      [|now rewrite lookup_insert_ne].
    rewrite Forall_forall in Halias. pose proof (Halias g Hg Heq) as Hgty.
    unfold written_by in Hw. rewrite Hgty in Hw.
    destruct w; try done. subst. rewrite Heq. apply lookup_insert_eq. }
  eapply (after_scan_invariant flags (pre ++ t :: post) _ Hwrite); [|exact Hrun].
  subst flags. rewrite scan_flags_app.
  destruct (scan_flags_bool (pre ++ t :: post) fs1 (mkState (length pre) false m1 o1))
    as (s1 & Hs1 & Hp1 & _).
  { simpl. rewrite arg_middle. rewrite Forall_forall in Hbefore. exact Hbefore. }
  rewrite Hs1. simpl in Hp1. simpl. unfold flag_body at 1.
  rewrite Hp1, arg_middle, Hm. unfold dispatch. rewrite Hty.
  apply (scan_flags_invariant (fs1 ++ f :: fs2) (pre ++ t :: post) _ Hwrite).
  + intros g Hg. apply elem_of_app. right. now right.
  + simpl. rewrite Hp1, length_app. simpl. destruct pre; [done|simpl; lia].
  + simpl. apply lookup_insert_eq.
Qed.

(** ** The parser against the specification's description *)

(** On a value that converts, the switch stores the converted value and
    moves to the value token. *)
Lemma dispatch_convert argv f s (c : cell double) :
  pos s + 1 < length argv ->
  convert strtod (type f) (arg argv (pos s + 1)) = Some c ->
  dispatch strtod argv f s = Continue (advance (store (value f) c s)).
Proof.
  intros Hlt Hc. apply Nat.leb_gt in Hlt.
  unfold dispatch. unfold convert in Hc.
  destruct (type f); try done; rewrite Hlt.
  - destruct (arg argv (pos s + 1)) as [|c0 [|]]; now simplify_eq.
  - now simplify_eq.
  - pose proof (strtol_check (arg argv (pos s + 1))) as Hchk. simpl in Hchk.
    destruct (leading_int (arg argv (pos s + 1))) as [z|]; [|done].
    destruct (decide (in_int_range z)); [|done].
    destruct Hchk as [-> ->]. now simplify_eq.
  - simpl in Hc. destruct (_ || _); now simplify_eq.
Qed.

(** One iteration of the outer loop on a Bool flag matched by one
    declaration only. *)
Lemma bool_flag_step fs1 f fs2 pre t rest m o :
  type f = MICRO_FLAG_BOOL ->
  matches f t = true ->
  Forall (fun g => matches g t = false) fs1 ->
  Forall (fun g => matches g t = false) fs2 ->
  parse_from strtod (fs1 ++ f :: fs2) (pre ++ t :: rest) (length pre) m o
  = parse_from strtod (fs1 ++ f :: fs2) ((pre ++ [t]) ++ rest) (length (pre ++ [t]))
      (<[value f := CBool true]> m) o.
Proof.
  intros Hty Hm Hno1 Hno2. rewrite parse_from_unfold.
  assert ((length (pre ++ t :: rest) <=? length pre)%nat = false) as ->
    by (apply Nat.leb_gt; rewrite length_app; simpl; lia).
  rewrite (scan_flags_at_first_match pre t rest fs1 f fs2 m o Hno1 Hm).
  unfold dispatch. rewrite Hty. rewrite scan_flags_no_match.
  - simpl. rewrite <- app_assoc, length_app. simpl. f_equal. lia.
  - simpl. rewrite arg_middle. intros g Hg.
    rewrite Forall_forall in Hno2. now apply Hno2.
Qed.

(** One iteration on a flag with a value that converts and is the name
    of no declaration after it. *)
Lemma value_flag_step fs1 f fs2 pre t v rest m o (c : cell double) :
  matches f t = true ->
  Forall (fun g => matches g t = false) fs1 ->
  Forall (fun g => matches g v = false) fs2 ->
  convert strtod (type f) v = Some c ->
  parse_from strtod (fs1 ++ f :: fs2) (pre ++ t :: v :: rest) (length pre) m o
  = parse_from strtod (fs1 ++ f :: fs2) ((pre ++ [t; v]) ++ rest) (length (pre ++ [t; v]))
      (<[value f := c]> m) o.
Proof.
  intros Hm Hno1 Hno2 Hc. rewrite parse_from_unfold.
  assert ((length (pre ++ t :: v :: rest) <=? length pre)%nat = false) as ->
    by (apply Nat.leb_gt; rewrite length_app; simpl; lia).
  rewrite (scan_flags_at_first_match pre t (v :: rest) fs1 f fs2 m o Hno1 Hm).
  rewrite (dispatch_convert _ f _ c).
  - unfold advance, store. cbn [pos found mem out].
    rewrite (after_value_no_match _ pre t v rest fs2 _ o Hno2).
    rewrite <- app_assoc, length_app. simpl. done.
  - simpl. rewrite length_app. simpl. lia.
  - simpl. rewrite Nat.add_1_r, arg_middle_S. exact Hc.
Qed.


(** *** Lists of writes *)

Lemma apply_writes_app (ws1 ws2 : list (addr * cell double)) m :
  apply_writes (ws1 ++ ws2) m = apply_writes ws2 (apply_writes ws1 m).
Proof.
  revert m. induction ws1 as [|[a c] ws1 IH]; intros m; simpl; [done|apply IH].
Qed.

Lemma apply_writes_frame (ws : list (addr * cell double)) m (a : addr) :
  Forall (fun w => fst w <> a) ws -> apply_writes ws m !! a = m !! a.
Proof.
  revert m. induction ws as [|[a0 c0] ws IH]; intros m Hno; simpl; [done|].
  apply Forall_cons in Hno as [Hne Hno]. rewrite (IH _ Hno).
  now apply lookup_insert_ne.
Qed.

Lemma apply_writes_last (ws1 ws2 : list (addr * cell double)) m (a : addr)
    (c : cell double) :
  Forall (fun w => fst w <> a) ws2 ->
  apply_writes (ws1 ++ (a, c) :: ws2) m !! a = Some c.
Proof.
  intros Hno. revert m. induction ws1 as [|[a0 c0] ws1 IH]; intros m; simpl.
  - rewrite (apply_writes_frame _ _ _ Hno). apply lookup_insert_eq.
  - apply IH.
Qed.

(** *** A token that names Bool flags only *)

(** The inner loop sets every Bool flag the token names, in table order,
    and leaves the index where it is. *)
Lemma scan_flags_switches argv flags s :
  forallb is_bool_flag (List.filter (fun f => matches f (arg argv (pos s))) flags) = true ->
  scan_flags strtod argv flags s
  = Continue (mkState (pos s)
                (found s || existsb (fun f => matches f (arg argv (pos s))) flags)
                (apply_writes
                   (map (fun f => (value f, CBool true))
                      (List.filter (fun f => matches f (arg argv (pos s))) flags))
                   (mem s))
                (out s)).
Proof.
  revert s. induction flags as [|f flags IH]; intros s H; simpl.
  - rewrite orb_false_r. now destruct s.
  - unfold flag_body. simpl in H.
    destruct (matches f (arg argv (pos s))) eqn:Hm.
    + simpl in H. apply andb_true_iff in H as [Hb H].
      unfold dispatch. unfold is_bool_flag in Hb.
      destruct (type f); try done.
      rewrite IH; simpl; [|done]. now rewrite orb_true_r.
    + now rewrite IH.
Qed.

Lemma filter_existsb {A : Type} (p : A -> bool) (l : list A) :
  List.filter p l <> [] -> existsb p l = true.
Proof.
  induction l as [|a l IH]; simpl; [done|].
  destruct (p a); [done|]. exact IH.
Qed.

(** One iteration of the outer loop on such a token. *)
Lemma switches_step flags pre t rest m o :
  List.filter (fun f => matches f t) flags <> [] ->
  forallb is_bool_flag (List.filter (fun f => matches f t) flags) = true ->
  parse_from strtod flags (pre ++ t :: rest) (length pre) m o
  = parse_from strtod flags ((pre ++ [t]) ++ rest) (length (pre ++ [t]))
      (apply_writes
         (map (fun f => (value f, CBool true)) (List.filter (fun f => matches f t) flags))
         m) o.
Proof.
  intros Hne Hb. rewrite parse_from_unfold.
  assert ((length (pre ++ t :: rest) <=? length pre)%nat = false) as ->
    by (apply Nat.leb_gt; rewrite length_app; simpl; lia).
  rewrite scan_flags_switches; cbn [pos found mem out]; rewrite arg_middle; [|done].
  rewrite (filter_existsb _ _ Hne). simpl.
  rewrite <- app_assoc, length_app. simpl. f_equal. lia.
Qed.

(** *** The argument vectors that [reading] covers *)

Lemma later_declarations_split t fs1 f fs2 :
  Forall (fun g => matches g t = false) fs1 ->
  matches f t = true ->
  later_declarations t (fs1 ++ f :: fs2) = fs2.
Proof.
  intros Hno Hm. induction Hno as [|g fs1 Hg _ IH]; simpl.
  - now rewrite Hm.
  - now rewrite Hg.
Qed.

Lemma writes_of_app (occs1 occs2 : list (occurrence double)) :
  writes_of (occs1 ++ occs2) = (writes_of occs1 ++ writes_of occs2)%list.
Proof. apply map_app. Qed.

Lemma writes_of_switches fs :
  writes_of (map (fun f => (f, CBool true)) fs)
  = map (fun f => (value f, @CBool double true)) fs.
Proof. unfold writes_of. rewrite map_map. done. Qed.

(** On such an argument vector the outer loop runs to its end and has
    made the writes of the occurrences, in their order. *)
Lemma parse_from_reading flags tokens :
  forall pre m o occs,
    pre <> [] ->
    reading strtod flags tokens = Some occs ->
    parse_from strtod flags (pre ++ tokens) (length pre) m o
    = Some (MICRO_FLAG_OK, apply_writes (writes_of occs) m, o).
Proof.
  remember (length tokens) as n eqn:Hn. revert tokens Hn.
  induction n as [n IH] using lt_wf_ind. intros tokens Hn pre m o occs Hne H.
  destruct tokens as [|t rest].
  { simpl in H. simplify_eq. apply parse_from_end. rewrite length_app. simpl. lia. }
  assert (forall extra : list string, (pre ++ extra)%list <> [])
    as Hne' by (intros extra; destruct pre; done).
  cbn [reading] in H. cbv zeta in H.
  destruct (forallb is_bool_flag (List.filter (fun f => matches f t) flags)) eqn:Hb.
  - destruct (List.filter (fun f => matches f t) flags) as [|f0 named] eqn:Hfil; [done|].
    destruct (reading strtod flags rest) as [occs'|] eqn:Hrest; [|done].
    simplify_eq.
    rewrite switches_step; rewrite Hfil; [|done|done].
    change ((f0, CBool true) :: map (fun f => (f, CBool true)) named ++ occs')%list
      with (map (fun f => (f, @CBool double true)) (f0 :: named) ++ occs')%list.
    rewrite writes_of_app, writes_of_switches, apply_writes_app.
    eapply (IH (length rest)); [simpl; lia|done|apply Hne'|exact Hrest].
  - destruct (List.filter (fun f => matches f t) flags) as [|f [|]] eqn:Hfil; try done.
    destruct rest as [|v rest']; [done|].
    apply filter_single_split in Hfil as (fs1 & fs2 & -> & Hm & Hno1 & Hno2).
    rewrite (later_declarations_split t fs1 f fs2 Hno1 Hm) in H.
    destruct (existsb (fun g => matches g v) fs2) eqn:Hex; [done|].
    destruct (convert strtod (type f) v) as [c|] eqn:Hc; [|done].
    destruct (reading strtod (fs1 ++ f :: fs2) rest') as [occs'|] eqn:Hrest; [|done].
    simplify_eq. apply existsb_false_Forall in Hex.
    rewrite (value_flag_step fs1 f fs2 pre t v rest' m o c Hm Hno1 Hex Hc).
    change (apply_writes (writes_of ((f, c) :: occs')) m)
      with (apply_writes (writes_of occs') (<[value f := c]> m)).
    eapply (IH (length rest')); [simpl; lia|done|apply Hne'|exact Hrest].
Qed.

(** *** The declarations matched on such an argument vector *)

Lemma scan_matched_no_match argv flags s :
  (forall f, f ∈ flags -> matches f (arg argv (pos s)) = false) ->
  scan_matched strtod argv flags s = [].
Proof.
  induction flags as [|f flags IH]; intros H; simpl; [done|].
  rewrite H by left. apply IH. intros g Hg. apply H. now right.
Qed.

Lemma scan_matched_first_match argv fs1 f fs2 s :
  (forall g, g ∈ fs1 -> matches g (arg argv (pos s)) = false) ->
  matches f (arg argv (pos s)) = true ->
  scan_matched strtod argv (fs1 ++ f :: fs2) s
  = f :: match dispatch strtod argv f (set_found s) with
         | Continue s' => scan_matched strtod argv fs2 s'
         | Return _ _ => []
         end.
Proof.
  induction fs1 as [|g fs1 IH]; intros H Hm; simpl.
  - now rewrite Hm.
  - rewrite H by left. apply IH; [|done]. intros g' Hg'. apply H. now right.
Qed.

(** A token that names Bool flags only matches all of them. *)
Lemma scan_matched_switches argv flags s :
  forallb is_bool_flag (List.filter (fun f => matches f (arg argv (pos s))) flags) = true ->
  scan_matched strtod argv flags s
  = List.filter (fun f => matches f (arg argv (pos s))) flags.
Proof.
  revert s. induction flags as [|f flags IH]; intros s H; simpl; [done|].
  simpl in H. destruct (matches f (arg argv (pos s))) eqn:Hm.
  - simpl in H. apply andb_true_iff in H as [Hb H].
    unfold dispatch. unfold is_bool_flag in Hb.
    destruct (type f); try done.
    f_equal. now rewrite IH.
  - now apply IH.
Qed.

(** A flag with a value that converts and is the name of no declaration
    after it: the inner loop matches that declaration only, and is left
    at the value token. *)
Lemma value_flag_scan fs1 f fs2 pre t v rest m o (c : cell double) :
  matches f t = true ->
  Forall (fun g => matches g t = false) fs1 ->
  Forall (fun g => matches g v = false) fs2 ->
  convert strtod (type f) v = Some c ->
  scan_flags strtod (pre ++ t :: v :: rest) (fs1 ++ f :: fs2) (mkState (length pre) false m o)
  = Continue (mkState (S (length pre)) true (<[value f := c]> m) o)
  /\ scan_matched strtod (pre ++ t :: v :: rest) (fs1 ++ f :: fs2)
       (mkState (length pre) false m o)
     = [f].
Proof.
  intros Hm Hno1 Hno2 Hc.
  assert (dispatch strtod (pre ++ t :: v :: rest) f (set_found (mkState (length pre) false m o))
          = Continue (mkState (S (length pre)) true (<[value f := c]> m) o)) as Hd.
  { rewrite (dispatch_convert _ f _ c); [done| |].
    - simpl. rewrite length_app. simpl. lia.
    - simpl. rewrite Nat.add_1_r, arg_middle_S. exact Hc. }
  assert (forall g, g ∈ fs1 ->
            matches g (arg (pre ++ t :: v :: rest) (pos (mkState (length pre) false m o)))
            = false) as H1.
  { intros g Hg. simpl. rewrite arg_middle. rewrite Forall_forall in Hno1. now apply Hno1. }
  assert (forall g, g ∈ fs2 ->
            matches g (arg (pre ++ t :: v :: rest)
                         (pos (mkState (S (length pre)) true (<[value f := c]> m) o)))
            = false) as H2.
  { intros g Hg. simpl. rewrite arg_middle_S. rewrite Forall_forall in Hno2. now apply Hno2. }
  split.
  - rewrite scan_flags_first_match; [|exact H1|simpl; now rewrite arg_middle].
    rewrite Hd. now apply scan_flags_no_match.
  - rewrite scan_matched_first_match; [|exact H1|simpl; now rewrite arg_middle].
    rewrite Hd. f_equal. now apply scan_matched_no_match.
Qed.

(** The declarations matched during the call are the flags that occur,
    in the order of the tokens. *)
Lemma matched_loop_reading flags tokens :
  forall fuel pre m o occs,
    pre <> [] ->
    length tokens <= fuel ->
    reading strtod flags tokens = Some occs ->
    matched_loop strtod fuel flags (pre ++ tokens) (length pre) m o = map fst occs.
Proof.
  remember (length tokens) as n eqn:Hn. revert tokens Hn.
  induction n as [n IH] using lt_wf_ind. intros tokens Hn fuel pre m o occs Hne Hfuel H.
  destruct tokens as [|t rest].
  { simpl in H. simplify_eq.
    assert ((length (pre ++ []) <=? length pre)%nat = true) as Hle
      by (apply Nat.leb_le; rewrite length_app; simpl; lia).
    destruct fuel; simpl; now rewrite Hle. }
  assert (forall extra : list string, (pre ++ extra)%list <> [])
    as Hne' by (intros extra; destruct pre; done).
  destruct fuel as [|fuel]; [simpl in Hn; lia|].
  cbn [matched_loop].
  assert ((length (pre ++ t :: rest) <=? length pre)%nat = false) as ->
    by (apply Nat.leb_gt; rewrite length_app; simpl; lia).
  cbn [reading] in H. cbv zeta in H.
  destruct (forallb is_bool_flag (List.filter (fun f => matches f t) flags)) eqn:Hb.
  - destruct (List.filter (fun f => matches f t) flags) as [|f0 named] eqn:Hfil; [done|].
    destruct (reading strtod flags rest) as [occs'|] eqn:Hrest; [|done].
    simplify_eq.
    rewrite scan_matched_switches, scan_flags_switches;
      cbn [pos found mem out]; rewrite ?arg_middle, ?Hfil; try done.
    rewrite (filter_existsb (fun f => matches f t) flags) by now rewrite Hfil.
    cbn [orb].
    change ((f0, CBool true) :: map (fun f => (f, CBool true)) named ++ occs')%list
      with (map (fun f => (f, @CBool double true)) (f0 :: named) ++ occs')%list.
    rewrite map_app, map_map. cbn [fst]. rewrite map_id. f_equal.
    replace (pre ++ t :: rest)%list with ((pre ++ [t]) ++ rest)%list
      by now rewrite <- app_assoc.
    replace (S (length pre)) with (length (pre ++ [t]))
      by (rewrite length_app; simpl; lia).
    eapply (IH (length rest)); [simpl; lia|done|apply Hne'|simpl in Hfuel; lia|exact Hrest].
  - destruct (List.filter (fun f => matches f t) flags) as [|f [|]] eqn:Hfil; try done.
    destruct rest as [|v rest']; [done|].
    apply filter_single_split in Hfil as (fs1 & fs2 & -> & Hm & Hno1 & Hno2).
    rewrite (later_declarations_split t fs1 f fs2 Hno1 Hm) in H.
    destruct (existsb (fun g => matches g v) fs2) eqn:Hex; [done|].
    destruct (convert strtod (type f) v) as [c|] eqn:Hc; [|done].
    destruct (reading strtod (fs1 ++ f :: fs2) rest') as [occs'|] eqn:Hrest; [|done].
    simplify_eq. apply existsb_false_Forall in Hex.
    destruct (value_flag_scan fs1 f fs2 pre t v rest' m o c Hm Hno1 Hex Hc) as [-> ->].
    cbn [found pos mem out map fst app]. f_equal.
    replace (pre ++ t :: v :: rest')%list with ((pre ++ [t; v]) ++ rest')%list
      by now rewrite <- app_assoc.
    replace (S (S (length pre))) with (length (pre ++ [t; v]))
      by (rewrite length_app; simpl; lia).
    eapply (IH (length rest')); [simpl; lia|done|apply Hne'|simpl in Hfuel; lia|exact Hrest].
Qed.

End Properties.

(** * The claims *)

(** C9.  For a table of the five declared kinds, the text written is the
    program name line, the description line, an empty line, the
    [Options:] header, and then one block per flag, in table order, so
    as many blocks as flags.  A block is [option_line] (short name, a
    comma exactly when both names are present, long name, the
    placeholder of the kind, empty for Bool) and [description_line], the
    indented description. *)
Theorem print_help_text (prog_name description : string) (flags : list MicroFlag) :
  Forall (fun f => declared_kind (type f)) flags ->
  micro_flag_print_help prog_name description flags
  = Some (MICRO_FLAG_OK,
          prog_name ++ nl ++ description ++ nl ++ nl ++ "Options:" ++ nl
          ++ concat_strings (map option_block flags))
  /\ length (map option_block flags) = length flags
  /\ Forall (fun f => micro_flag_type_str !! type_index (type f)
                      = Some (placeholder_of (type f))) flags.
Proof.
  intros H. split_and!.
  - unfold micro_flag_print_help. rewrite (print_flags_declared _ _ H).
    simpl. rewrite !append_assoc. simpl. reflexivity.
  - apply length_map.
  - eapply Forall_impl; [exact H|]. intros f Hf.
    now apply micro_flag_type_str_declared.
Qed.

(** C10.  [micro_flag_print_help] has one [return], of [MICRO_FLAG_OK]:
    no input makes it return an error, and it does return on every table
    of the five declared kinds. *)
Theorem print_help_returns_ok (prog_name description : string) (flags : list MicroFlag) :
  (forall e o, micro_flag_print_help prog_name description flags = Some (e, o) ->
               e = MICRO_FLAG_OK)
  /\ (Forall (fun f => declared_kind (type f)) flags ->
      exists o, micro_flag_print_help prog_name description flags
                = Some (MICRO_FLAG_OK, o)).
Proof.
  split.
  - unfold micro_flag_print_help. intros e o H.
    destruct (print_flags flags _); now simplify_eq.
  - intros H. unfold micro_flag_print_help.
    rewrite (print_flags_declared _ _ H). eauto.
Qed.

Section Claims.

Context {double : Type}.
Variable strtod : string -> conversion double.

Implicit Types (m : gmap addr (cell double)) (f g : MicroFlag).
Implicit Types (flags fs : list MicroFlag) (argv pre post : list string).
Implicit Types (t v o : string).

(** C2, amended.  On an argument vector that [reading] covers (every
    flag token is the name either of Bool flags only, or of exactly one
    declaration, of kind Char, Str, Int or Double, followed by a value
    token that converts within the range of the kind and is the name of
    no declaration placed later in the table) the call returns
    [MICRO_FLAG_OK] and prints nothing.  With [occs] the occurrences of
    the flags in the order of the tokens, each with its converted value
    ([true] for a Bool flag): the flags that occur are the declarations
    the call matches, in that order; the destination of every one of
    them holds the value of the last occurrence among the flags that
    point to it, so the value of the flag's own last occurrence when no
    flag that occurs after it shares the destination; and an address
    that is the destination of no flag that occurs is left as the caller
    set it. *)
Theorem valid_arguments_round_trip flags (prog : string) tokens occs m :
  reading strtod flags tokens = Some occs ->
  exists m',
    micro_flag_parse strtod flags (prog :: tokens) m = Some (MICRO_FLAG_OK, m', "")
    /\ matched_flags strtod flags (prog :: tokens) m = map fst occs
    /\ (forall before f (c : cell double) after,
          occs = (before ++ (f, c) :: after)%list ->
          Forall (fun x => destination x <> value f) after ->
          m' !! value f = Some c)
    /\ (forall a : addr,
          Forall (fun x => destination x <> a) occs -> m' !! a = m !! a).
Proof.
  intros H. exists (apply_writes (writes_of occs) m). split_and!.
  - apply (parse_from_reading strtod flags tokens [prog] m "" occs); done.
  - unfold matched_flags.
    apply (matched_loop_reading strtod flags tokens _ [prog] m "" occs);
      [done|simpl; lia|exact H].
  - intros before f c after -> Hno.
    unfold writes_of. rewrite map_app.
    apply (apply_writes_last (writes_of before) (writes_of after) m (value f) c).
    apply Forall_map. exact Hno.
  - intros a Hno. apply apply_writes_frame. apply Forall_map. exact Hno.
Qed.



(** C5, amended.  An Int flag [f], the first declaration matching the
    token [t] the scan has reached.  With no token after [t] the call
    fails with [MICRO_FLAG_ERROR_MISSING_INT].  With a following token
    [v] it fails with [MICRO_FLAG_ERROR_NOT_AN_INT] exactly when [v],
    after optional white space and an optional sign, starts with no
    decimal digit, or the integer it starts with is outside the range of
    [int]; otherwise that integer is written to the destination of [f],
    whatever follows the digits in [v], and parsing continues one index
    further. *)
Theorem int_flag_value flags fs1 f fs2 pre t m m1 o1 :
  flags = (fs1 ++ f :: fs2)%list ->
  type f = MICRO_FLAG_INT ->
  matches f t = true ->
  Forall (fun g => matches g t = false) fs1 ->
  pre <> [] ->
  micro_flag_parse strtod flags pre m = Some (MICRO_FLAG_OK, m1, o1) ->
  micro_flag_parse strtod flags (pre ++ [t]) m
  = Some (MICRO_FLAG_ERROR_MISSING_INT, m1, o1 ++ usage_line "<integer>" f)
  /\ forall v post,
       (leading_int v = None ->
          micro_flag_parse strtod flags (pre ++ t :: v :: post) m
          = Some (MICRO_FLAG_ERROR_NOT_AN_INT, m1, o1 ++ usage_line "<integer>" f))
       /\ (forall z, leading_int v = Some z -> ~ in_int_range z ->
             micro_flag_parse strtod flags (pre ++ t :: v :: post) m
             = Some (MICRO_FLAG_ERROR_NOT_AN_INT, m1, o1 ++ usage_line "<integer>" f))
       /\ (forall z, leading_int v = Some z -> in_int_range z ->
             micro_flag_parse strtod flags (pre ++ t :: v :: post) m
             = after_scan strtod flags (pre ++ t :: v :: post)
                 (scan_flags strtod (pre ++ t :: v :: post) fs2
                    (mkState (S (length pre)) true (<[value f := CInt z]> m1) o1))
             /\ (Forall (fun g => matches g v = false) fs2 ->
                   micro_flag_parse strtod flags (pre ++ t :: v :: post) m
                   = parse_from strtod flags (pre ++ t :: v :: post) (length pre + 2)
                       (<[value f := CInt z]> m1) o1)).
Proof.
  intros -> Hty Hm Hno Hne Hpre. split.
  - rewrite (micro_flag_parse_at strtod (fs1 ++ f :: fs2) pre t [] m m1 o1 Hne Hpre).
    rewrite (scan_flags_at_first_match strtod pre t [] fs1 f fs2 m1 o1 Hno Hm).
    unfold dispatch. rewrite Hty. simpl.
    assert ((length (pre ++ [t]) <=? length pre + 1)%nat = true) as ->
      by (apply Nat.leb_le; rewrite length_app; simpl; lia).
    done.
  - intros v post.
    pose proof (micro_flag_parse_at strtod (fs1 ++ f :: fs2) pre t (v :: post)
                  m m1 o1 Hne Hpre) as Hat.
    rewrite (scan_flags_at_first_match strtod pre t (v :: post) fs1 f fs2 m1 o1 Hno Hm) in Hat.
    unfold dispatch in Hat. rewrite Hty in Hat. simpl in Hat.
    assert ((length (pre ++ t :: v :: post) <=? length pre + 1)%nat = false) as Hlen
      by (apply Nat.leb_gt; rewrite length_app; simpl; lia).
    rewrite Hlen, Nat.add_1_r, arg_middle_S in Hat.
    pose proof (strtol_check v) as Hchk. simpl in Hchk.
    split; [|split].
    + intros Hv. rewrite Hv in Hchk. rewrite Hchk in Hat. exact Hat.
    + intros z Hv Hz. rewrite Hv in Hchk.
      destruct (decide (in_int_range z)); [done|]. rewrite Hchk in Hat. exact Hat.
    + intros z Hv Hz. rewrite Hv in Hchk.
      destruct (decide (in_int_range z)); [|done].
      destruct Hchk as [Hchk Hval]. rewrite Hchk, Hval in Hat.
      split; [exact Hat|].
      intros Hno2. rewrite Hat. now apply after_value_no_match.
Qed.

(** C8, amended.  (1) A Bool flag that the scan matches with a token,
    at whatever index the token stands, is written [true], and its
    destination holds [true] when the call returns, provided only Bool
    flags point to that destination.  (2) An address that is the
    destination of no declaration matched during the scan is left as
    the caller set it: so is the destination of a flag that is never
    matched, unless it shares it with a flag that is. *)
Theorem bool_flag_set_and_frame flags argv m :
  exists e m' o',
    micro_flag_parse strtod flags argv m = Some (e, m', o')
    /\ (forall f,
          f ∈ matched_flags strtod flags argv m ->
          type f = MICRO_FLAG_BOOL ->
          Forall (fun g => value g = value f -> type g = MICRO_FLAG_BOOL) flags ->
          m' !! value f = Some (CBool true))
    /\ (forall a : addr,
          Forall (fun g => value g <> a) (matched_flags strtod flags argv m) ->
          m' !! a = m !! a).
Proof.
  destruct (micro_flag_parse_returns strtod flags argv m) as [[[e m'] o'] Hrun].
  exists e, m', o'. split; [exact Hrun|].
  unfold micro_flag_parse, parse_from in Hrun. unfold matched_flags. split.
  - intros f Hf Hty Halias.
    eapply (matched_loop_set strtod); [exact Halias|exact Hty| |left; exact Hf|exact Hrun].
    lia.
  - intros a Ha. eapply (matched_loop_frame strtod); [exact Ha|exact Hrun].
Qed.

(** C3, amended.  The inner loop does not stop at the first declaration
    that matches: when two declarations carry the same short name [t]
    and every declaration matching [t] is a Bool flag, one occurrence of
    [t] sets the destinations of both in the same pass over the table
    (and changes no destination but those of the declarations matching
    [t]); the scan then goes on with the next token. *)
Theorem duplicate_bool_flags_both_set flags i j f1 f2 pre t post m m1 o1 :
  i <> j ->
  flags !! i = Some f1 ->
  flags !! j = Some f2 ->
  short_name f1 = Some t ->
  short_name f2 = Some t ->
  Forall (fun g => matches g t = true -> type g = MICRO_FLAG_BOOL) flags ->
  pre <> [] ->
  micro_flag_parse strtod flags pre m = Some (MICRO_FLAG_OK, m1, o1) ->
  exists m2,
    m2 !! value f1 = Some (CBool true)
    /\ m2 !! value f2 = Some (CBool true)
    /\ (forall a : addr,
          Forall (fun g => matches g t = true -> value g <> a) flags ->
          m2 !! a = m1 !! a)
    /\ micro_flag_parse strtod flags (pre ++ t :: post) m
       = parse_from strtod flags (pre ++ t :: post) (S (length pre)) m2 o1.
Proof.
  intros _ Hi Hj Hn1 Hn2 Hbool Hne Hpre.
  assert (forall f, short_name f = Some t -> matches f t = true) as Hname.
  { intros f Hf. unfold matches, name_is. rewrite Hf, String.eqb_refl. done. }
  destruct (scan_flags_bool strtod (pre ++ t :: post) flags (mkState (length pre) false m1 o1))
    as (s' & Hs & Hp & Ho & _ & Hset & _ & Hframe).
  { simpl. rewrite arg_middle. rewrite Forall_forall in Hbool. exact Hbool. }
  simpl in Hp, Ho, Hset, Hframe. rewrite arg_middle in Hset, Hframe.
  apply list_elem_of_lookup_2 in Hi, Hj.
  destruct (Hset f1 Hi (Hname f1 Hn1)) as [Hfound H1].
  destruct (Hset f2 Hj (Hname f2 Hn2)) as [_ H2].
  exists (mem s'). split_and!; try done.
  - intros a Ha. apply Hframe. rewrite Forall_forall in Ha. exact Ha.
  - rewrite (micro_flag_parse_at strtod flags pre t post m m1 o1 Hne Hpre).
    rewrite Hs. simpl. rewrite Hfound, Hp, Ho. done.
Qed.

End Claims.

(** * The sample program

    The closed statements below run the model with [Binary64.strtod] on
    the table and the defaults of [src/example.c]. *)

(** ** What the parser does on value tokens that are also flag names *)

(** C1.  [example -o -n 7]: the token [-n] is consumed as the value of
    [-o] ([out_name] holds it), and is then itself matched, in the same
    pass over the table, against the later declaration [-n], which reads
    [7] as its own value.  The [i++] of line 250 moves the index inside
    the inner loop, and the declarations that follow are compared with
    the value token. *)
Theorem value_token_matched_as_flag :
  parse_example ["prog"; "-o"; "-n"; "7"]
  = Some (MICRO_FLAG_OK,
          <[a_number := CInt 7]> (<[out_name := CStr "-n"]> example_args),
          "").
Proof. vm_compute. reflexivity. Qed.

(** [example -o -n]: the same defect makes a call fail.  The value [-n]
    is matched against the declaration [-n], which finds no token after
    it. *)
Example value_token_matched_missing_value :
  parse_example ["prog"; "-o"; "-n"]
  = Some (MICRO_FLAG_ERROR_MISSING_INT,
          <[out_name := CStr "-n"]> example_args,
          "Usage: -n,--number <integer>" ++ nl).
Proof. vm_compute. reflexivity. Qed.

(** The conversions the values go through. *)
Example parse_int_42 :
  parse_example ["prog"; "-n"; "42"]
  = Some (MICRO_FLAG_OK, <[a_number := CInt 42]> example_args, "").
Proof. vm_compute. reflexivity. Qed.

(** [-3.5] is [-7 * 2^-1]. *)
Example parse_double_minus_3_5 :
  parse_example ["prog"; "-d"; "-3.5"]
  = Some (MICRO_FLAG_OK,
          <[a_double := CDouble (binary_normalize Binary64.prec Binary64.emax (-7) (-1) false)]>
            example_args,
          "").
Proof. vm_compute. reflexivity. Qed.

Example parse_all_kinds :
  parse_example ["prog"; "--help"; "-o"; "a.out"; "-c"; "z"; "--number"; "-12"; "-d"; "1e3"]
  = Some (MICRO_FLAG_OK,
          <[a_double := CDouble (binary_normalize Binary64.prec Binary64.emax 1000 0 false)]>
          (<[a_number := CInt (-12)]>
          (<[a_char := CChar "z"]>
          (<[out_name := CStr "a.out"]>
          (<[show_help := CBool true]> example_args)))),
          "").
Proof. vm_compute. reflexivity. Qed.

(** The specification's reading of an argument vector, where it has
    one: a value may be the name of a declaration placed earlier in the
    table, and a token may name several Bool flags. *)
Example reading_example :
  reading Binary64.strtod example_flags ["-n"; "42"; "-h"; "-o"; "-h"; "-n"; "7"]
  = Some [ (mkFlag MICRO_FLAG_INT a_number (Some "-n") (Some "--number") "print this number",
            CInt 42);
           (help_flag, CBool true);
           (mkFlag MICRO_FLAG_STR out_name (Some "-o") (Some "--output") "set output file",
            CStr "-h");
           (mkFlag MICRO_FLAG_INT a_number (Some "-n") (Some "--number") "print this number",
            CInt 7) ].
Proof. vm_compute. reflexivity. Qed.

Example reading_duplicate_bool_flags :
  reading Binary64.strtod duplicate_bool_flags ["-v"]
  = Some (map (fun f => (f, CBool true)) duplicate_bool_flags).
Proof. vm_compute. reflexivity. Qed.

(** Vectors it leaves aside: a value that is the name of a later
    declaration, a value that does not convert, a token that is no
    name. *)
Example reading_leaves_aside :
  reading Binary64.strtod example_flags ["-o"; "-n"] = None
  /\ reading Binary64.strtod example_flags ["-n"; "2147483648"] = None
  /\ reading Binary64.strtod example_flags ["--bogus"] = None.
Proof. split_and!; vm_compute; reflexivity. Qed.

(** ** Errors and their diagnostics *)

(** C4.  A matching declaration of kind [_MICRO_FLAG_MAX] takes the
    [default] branch of the switch (lines 295-296): the error is returned
    and nothing has been written to standard output. *)
Theorem unknown_type_without_diagnostic :
  micro_flag_parse Binary64.strtod unknown_type_flags ["prog"; "-x"] ∅
  = Some (MICRO_FLAG_ERROR_UNKNOWN_TYPE, ∅, "").
Proof. vm_compute. reflexivity. Qed.

Example missing_int_example :
  parse_example ["prog"; "-n"]
  = Some (MICRO_FLAG_ERROR_MISSING_INT, example_args,
          "Usage: -n,--number <integer>" ++ nl).
Proof. vm_compute. reflexivity. Qed.

Example not_an_int_example :
  parse_example ["prog"; "-n"; "abc"]
  = Some (MICRO_FLAG_ERROR_NOT_AN_INT, example_args,
          "Usage: -n,--number <integer>" ++ nl).
Proof. vm_compute. reflexivity. Qed.

Example char_wrong_arg_example :
  parse_example ["prog"; "-c"; "ab"]
  = Some (MICRO_FLAG_ERROR_CHAR_WRONG_ARG, example_args,
          "Usage: -c,--char <char>" ++ nl).
Proof. vm_compute. reflexivity. Qed.

Example unknown_flag_example :
  parse_example ["prog"; "--bogus"]
  = Some (MICRO_FLAG_ERROR_UNKNOWN_FLAG, example_args,
          "Error parsing flags: unknown flag " ++ dquote ++ "--bogus" ++ dquote ++ nl).
Proof. vm_compute. reflexivity. Qed.

(** ** Where the statements of the specification stop holding *)

(** Against C2 as stated: [2147483648] is a valid integer literal, the
    value of the recognized flag [-n], and the call fails: the value is
    outside the range of [int] (lines 263-264). *)
Lemma int_literal_out_of_range_rejected :
  valid_int_literal "2147483648" = true
  /\ parse_example ["prog"; "-n"; "2147483648"]
     = Some (MICRO_FLAG_ERROR_NOT_AN_INT, example_args,
             "Usage: -n,--number <integer>" ++ nl).
Proof. split; vm_compute; reflexivity. Qed.

(** Against C3 as stated: two declarations named [-x] with different
    destinations, the first one a Char flag.  On the single token [-x]
    the first declaration returns its error, the second one is not
    reached, and neither destination is written. *)
Lemma duplicate_name_none_set :
  micro_flag_parse Binary64.strtod duplicate_name_flags ["prog"; "-x"] letter_and_switch
  = Some (MICRO_FLAG_ERROR_MISSING_CHAR, letter_and_switch,
          "Usage: -x,--letter <char>" ++ nl).
Proof. vm_compute. reflexivity. Qed.

(** With the value present the first declaration is served and the
    second one, compared with the value token, is passed over. *)
Example duplicate_name_second_not_set :
  micro_flag_parse Binary64.strtod duplicate_name_flags ["prog"; "-x"; "y"]
    letter_and_switch
  = Some (MICRO_FLAG_OK, <[0 := CChar "y"]> letter_and_switch, "")
  /\ <[0 := CChar "y"]> letter_and_switch !! 1 = Some (CBool false).
Proof. split; vm_compute; reflexivity. Qed.

(** Against C5 as stated: [12abc] is not an integer literal, and the call
    succeeds with [12] written. *)
Lemma int_flag_accepts_trailing_text :
  valid_int_literal "12abc" = false
  /\ parse_example ["prog"; "-n"; "12abc"]
     = Some (MICRO_FLAG_OK, <[a_number := CInt 12]> example_args, "").
Proof. split; vm_compute; reflexivity. Qed.



(** Against C8 as stated: the flag [-b] is never matched, no token is
    one of its names, and its destination, which it shares with [-a], is
    written. *)
Lemma unmatched_flag_destination_written :
  matches switch_b "-a" = false
  /\ matched_flags Binary64.strtod shared_destination_flags ["prog"; "-a"]
       two_switches_off = [switch_a]
  /\ micro_flag_parse Binary64.strtod shared_destination_flags ["prog"; "-a"]
       two_switches_off
     = Some (MICRO_FLAG_OK, <[value switch_b := CBool true]> two_switches_off, "")
  /\ <[value switch_b := CBool true]> two_switches_off !! value switch_b
     <> two_switches_off !! value switch_b.
Proof.
  split_and!.
  - reflexivity.
  - vm_compute. reflexivity.
  - vm_compute. reflexivity.
  - vm_compute. discriminate.
Qed.

(** ** The general statements at the sample inputs *)



Lemma int_flag_value_witness :
  parse_example ["prog"; "-n"]
  = Some (MICRO_FLAG_ERROR_MISSING_INT, example_args,
          "Usage: -n,--number <integer>" ++ nl)
  /\ parse_example ["prog"; "-n"; "abc"]
     = Some (MICRO_FLAG_ERROR_NOT_AN_INT, example_args,
             "Usage: -n,--number <integer>" ++ nl)
  /\ parse_example ["prog"; "-n"; "2147483648"]
     = Some (MICRO_FLAG_ERROR_NOT_AN_INT, example_args,
             "Usage: -n,--number <integer>" ++ nl)
  /\ parse_example ["prog"; "-n"; " -2147483648 or so"]
     = Some (MICRO_FLAG_OK, <[a_number := CInt (-2147483648)]> example_args, "").
Proof.
  pose (fs1 := firstn 3 example_flags).
  pose (f := mkFlag MICRO_FLAG_INT a_number (Some "-n") (Some "--number") "print this number").
  pose (fs2 := skipn 4 example_flags).
  assert (example_flags = (fs1 ++ f :: fs2)%list) as H1 by reflexivity.
  assert (type f = MICRO_FLAG_INT) as H2 by reflexivity.
  assert (matches f "-n" = true) as H3 by reflexivity.
  assert (Forall (fun g => matches g "-n" = false) fs1) as H4 by (repeat constructor).
  assert (["prog"] <> []) as H5 by discriminate.
  assert (micro_flag_parse Binary64.strtod example_flags ["prog"] example_args
          = Some (MICRO_FLAG_OK, example_args, "")) as H6 by reflexivity.
  assert (~ in_int_range 2147483648) as H7 by (unfold in_int_range, INT_MAX; lia).
  assert (in_int_range (-2147483648)) as H8 by (unfold in_int_range, INT_MIN, INT_MAX; lia).
  assert (Forall (fun g => matches g " -2147483648 or so" = false) fs2) as H9
    by (repeat constructor).
  destruct (int_flag_value Binary64.strtod example_flags fs1 f fs2
              ["prog"] "-n" example_args example_args "" H1 H2 H3 H4 H5 H6)
    as [Hmissing Hvalue].
  split_and!.
  - exact Hmissing.
  - exact (proj1 (Hvalue "abc" []) eq_refl).
  - exact (proj1 (proj2 (Hvalue "2147483648" [])) 2147483648%Z eq_refl H7).
  - exact (proj2 (proj2 (proj2 (Hvalue " -2147483648 or so" []))
                    (-2147483648)%Z eq_refl H8) H9).
Defined.

Lemma duplicate_bool_flags_both_set_witness :
  exists m2 : gmap addr (cell Binary64.double),
    m2 !! 0 = Some (CBool true)
    /\ m2 !! 1 = Some (CBool true)
    /\ micro_flag_parse Binary64.strtod duplicate_bool_flags ["prog"; "-v"] two_switches_off
       = Some (MICRO_FLAG_OK, m2, "").
Proof.
  pose (f1 := mkFlag MICRO_FLAG_BOOL 0 (Some "-v") (Some "--verbose") "say more").
  pose (f2 := mkFlag MICRO_FLAG_BOOL 1 (Some "-v") (Some "--version") "show the version").
  assert (0 <> 1) as H1 by discriminate.
  assert (duplicate_bool_flags !! 0 = Some f1) as H2 by reflexivity.
  assert (duplicate_bool_flags !! 1 = Some f2) as H3 by reflexivity.
  assert (short_name f1 = Some "-v") as H4 by reflexivity.
  assert (short_name f2 = Some "-v") as H5 by reflexivity.
  assert (Forall (fun g => matches g "-v" = true -> type g = MICRO_FLAG_BOOL)
            duplicate_bool_flags) as H6 by (repeat constructor).
  assert (["prog"] <> []) as H7 by discriminate.
  assert (micro_flag_parse Binary64.strtod duplicate_bool_flags ["prog"] two_switches_off
          = Some (MICRO_FLAG_OK, two_switches_off, "")) as H8 by reflexivity.
  destruct (duplicate_bool_flags_both_set Binary64.strtod duplicate_bool_flags 0 1 f1 f2
              ["prog"] "-v" [] two_switches_off two_switches_off ""
              H1 H2 H3 H4 H5 H6 H7 H8) as (m2 & Hm1 & Hm2 & _ & Hrun).
  exists m2. split_and!; [exact Hm1|exact Hm2|exact Hrun].
Defined.

Lemma bool_flag_set_and_frame_witness :
  exists e m' o',
    parse_example ["prog"; "-n"; "42"; "--help"; "-c"] = Some (e, m', o')
    /\ m' !! show_help = Some (CBool true)
    /\ m' !! out_name = example_args !! out_name.
Proof.
  pose (f := mkFlag MICRO_FLAG_BOOL show_help (Some "-h") (Some "--help") "show help message").
  assert (f ∈ matched_flags Binary64.strtod example_flags
                ["prog"; "-n"; "42"; "--help"; "-c"] example_args) as H1
    by (vm_compute; right; left).
  assert (type f = MICRO_FLAG_BOOL) as H2 by reflexivity.
  assert (Forall (fun g => value g = value f -> type g = MICRO_FLAG_BOOL) example_flags)
    as H3 by (repeat constructor; discriminate).
  assert (Forall (fun g => value g <> out_name)
            (matched_flags Binary64.strtod example_flags
               ["prog"; "-n"; "42"; "--help"; "-c"] example_args)) as H4
    by (vm_compute; repeat constructor; discriminate).
  destruct (bool_flag_set_and_frame Binary64.strtod example_flags
              ["prog"; "-n"; "42"; "--help"; "-c"] example_args)
    as (e & m' & o' & Hrun & Hset & Hframe).
  exists e, m', o'. split; [exact Hrun|]. split.
  - exact (Hset f H1 H2 H3).
  - exact (Hframe out_name H4).
Defined.

Lemma print_help_text_witness :
  micro_flag_print_help "example" "A sample application to showcase the library"
    example_flags
  = Some (MICRO_FLAG_OK,
          "example" ++ nl
          ++ "A sample application to showcase the library" ++ nl
          ++ nl
          ++ "Options:" ++ nl
          ++ "    -h,--help " ++ nl
          ++ "        show help message" ++ nl
          ++ "    -o,--output <str>" ++ nl
          ++ "        set output file" ++ nl
          ++ "    -c,--char <char>" ++ nl
          ++ "        give me a char!" ++ nl
          ++ "    -n,--number <int>" ++ nl
          ++ "        print this number" ++ nl
          ++ "    -d,--double <double>" ++ nl
          ++ "        print a double" ++ nl).
Proof.
  assert (Forall (fun f => declared_kind (type f)) example_flags) as H
    by (repeat constructor; discriminate).
  exact (proj1 (print_help_text "example" "A sample application to showcase the library"
                  example_flags H)).
Defined.

Lemma print_help_returns_ok_witness :
  exists o,
    micro_flag_print_help "example" "A sample application to showcase the library"
      example_flags
    = Some (MICRO_FLAG_OK, o).
Proof.
  assert (Forall (fun f => declared_kind (type f)) example_flags) as H
    by (repeat constructor; discriminate).
  exact (proj2 (print_help_returns_ok "example"
                  "A sample application to showcase the library" example_flags) H).
Defined.

Lemma valid_arguments_round_trip_witness :
  exists m' : gmap addr (cell Binary64.double),
    parse_example ["prog"; "-n"; "42"; "-d"; "-3.5"; "-n"; "7"] = Some (MICRO_FLAG_OK, m', "")
    /\ m' !! a_number = Some (CInt 7)
    /\ m' !! a_double
       = Some (CDouble (binary_normalize Binary64.prec Binary64.emax (-7) (-1) false))
    /\ m' !! out_name = example_args !! out_name.
Proof.
  pose (n := mkFlag MICRO_FLAG_INT a_number (Some "-n") (Some "--number") "print this number").
  pose (d := mkFlag MICRO_FLAG_DOUBLE a_double (Some "-d") (Some "--double") "print a double").
  pose (minus_3_5 := binary_normalize Binary64.prec Binary64.emax (-7) (-1) false).
  pose (occs := [ (n, CInt 42); (d, CDouble minus_3_5); (n, CInt 7) ]
                : list (occurrence Binary64.double)).
  assert (reading Binary64.strtod example_flags ["-n"; "42"; "-d"; "-3.5"; "-n"; "7"]
          = Some occs) as H by (vm_compute; reflexivity).
  destruct (valid_arguments_round_trip Binary64.strtod example_flags "prog"
              ["-n"; "42"; "-d"; "-3.5"; "-n"; "7"] occs example_args H)
    as (m' & Hrun & _ & Hlast & Hframe).
  exists m'. split_and!.
  - exact Hrun.
  - apply (Hlast [ (n, CInt 42); (d, CDouble minus_3_5) ] n (CInt 7) []); [reflexivity|].
    constructor.
  - apply (Hlast [ (n, CInt 42) ] d (CDouble minus_3_5) [ (n, CInt 7) ]); [reflexivity|].
    repeat constructor. discriminate.
  - apply Hframe. repeat constructor; discriminate.
Defined.

(** * Further properties of the parser *)

Section Further.

Context {double : Type}.
Variable strtod : string -> conversion double.

Implicit Types (s : state double) (m : gmap addr (cell double)) (f g : MicroFlag).
Implicit Types (flags fs : list MicroFlag) (argv pre suf post q : list string).
Implicit Types (t v o : string).

(** ** Termination and bounds *)

(** X1.  The outer loop ends within [argc - 1] iterations on every table
    and argument vector, although the inner loop moves its index: the
    call returns, and any larger bound on the iterations gives the same
    result. *)
Theorem micro_flag_parse_terminates flags argv m (fuel : nat) :
  length argv - 1 <= fuel ->
  exists e m' o',
    micro_flag_parse strtod flags argv m = Some (e, m', o')
    /\ parse_loop strtod fuel flags argv 1 m "" = Some (e, m', o').
Proof.
  intros Hfuel.
  destruct (parse_from_returns strtod flags argv 1 m "") as [[[e m'] o'] Hrun].
  exists e, m', o'. split; [exact Hrun|].
  rewrite (parse_loop_enough_fuel strtod fuel flags argv 1 m "" Hfuel). exact Hrun.
Qed.

Lemma dispatch_pos argv f s :
  pos s < length argv ->
  pos s <= pos (flow_state (dispatch strtod argv f s)) <= S (pos s)
  /\ pos (flow_state (dispatch strtod argv f s)) < length argv.
Proof.
  intros Hlt. unfold dispatch.
  destruct (type f); simpl; try lia;
    (destruct (length argv <=? pos s + 1)%nat eqn:E; simpl; [lia|];
     apply Nat.leb_gt in E; repeat case_match; simpl; lia).
Qed.

(** X2.  While the inner loop runs, the index [i] stays below [argc], so
    that [argv[i]] and, behind its guard, [argv[i+1]] are read inside
    the vector; it never decreases and grows by at most one for each
    declaration. *)
Theorem index_stays_in_bounds argv flags s :
  pos s < length argv ->
  pos s <= pos (flow_state (scan_flags strtod argv flags s)) <= pos s + length flags
  /\ pos (flow_state (scan_flags strtod argv flags s)) < length argv.
Proof.
  revert s. induction flags as [|f flags IH]; intros s Hlt; simpl; [lia|].
  unfold flag_body.
  destruct (matches f (arg argv (pos s))).
  - pose proof (dispatch_pos argv f (set_found s) Hlt) as Hd.
    destruct (dispatch strtod argv f (set_found s)) as [s1|e s1]; simpl in Hd |- *.
    + specialize (IH s1). lia.
    + lia.
  - specialize (IH s Hlt). lia.
Qed.

(** ** Argument vectors with other strings in front *)

Lemma arg_shift q argv (i : nat) :
  arg (q ++ argv) (length q + i) = arg argv i.
Proof.
  unfold arg. rewrite lookup_app_r by lia.
  now replace (length q + i - length q) with i by lia.
Qed.

Lemma dispatch_shift q argv f s :
  dispatch strtod (q ++ argv) f (shift (length q) s)
  = shift_flow (length q) (dispatch strtod argv f s).
Proof.
  unfold dispatch. simpl.
  assert ((length (q ++ argv) <=? length q + pos s + 1)%nat
          = (length argv <=? pos s + 1)%nat) as Hlen.
  { rewrite length_app.
    destruct (length argv <=? pos s + 1)%nat eqn:E.
    - apply Nat.leb_le in E. apply Nat.leb_le. lia.
    - apply Nat.leb_gt in E. apply Nat.leb_gt. lia. }
  rewrite Hlen, <- Nat.add_assoc, arg_shift.
  destruct (type f); try done; repeat case_match; try done;
    unfold advance, store; simpl; unfold shift; simpl; rewrite ?Nat.add_succ_r; done.
Qed.

Lemma scan_flags_shift q argv flags s :
  scan_flags strtod (q ++ argv) flags (shift (length q) s)
  = shift_flow (length q) (scan_flags strtod argv flags s).
Proof.
  revert s. induction flags as [|f flags IH]; intros s; simpl; [done|].
  unfold flag_body. simpl. rewrite arg_shift.
  destruct (matches f (arg argv (pos s))); [|apply IH].
  change (set_found (shift (length q) s)) with (shift (length q) (set_found s)).
  rewrite dispatch_shift.
  destruct (dispatch strtod argv f (set_found s)); simpl; [apply IH|done].
Qed.

(** The outer loop depends on the strings from its index on only. *)
Lemma parse_from_shift flags q argv (i : nat) m o :
  parse_from strtod flags (q ++ argv) (length q + i) m o
  = parse_from strtod flags argv i m o.
Proof.
  remember (length argv - i) as n eqn:Hn. revert i m o Hn.
  induction n as [n IH] using lt_wf_ind. intros i m o Hn.
  rewrite (parse_from_unfold strtod flags (q ++ argv)).
  rewrite (parse_from_unfold strtod flags argv).
  assert ((length (q ++ argv) <=? length q + i)%nat = (length argv <=? i)%nat) as ->.
  { rewrite length_app. destruct (length argv <=? i)%nat eqn:E.
    - apply Nat.leb_le in E. apply Nat.leb_le. lia.
    - apply Nat.leb_gt in E. apply Nat.leb_gt. lia. }
  destruct (length argv <=? i)%nat eqn:Hle; [done|]. apply Nat.leb_gt in Hle.
  change (mkState (length q + i) false m o)
    with (shift (length q) (mkState i false m o)).
  rewrite scan_flags_shift.
  destruct (scan_flags strtod argv flags (mkState i false m o)) as [s|e s] eqn:Hs;
    simpl; [|done].
  destruct (found s); simpl.
  - apply scan_flags_in_bounds in Hs as (Hp & _); [|done]. simpl in Hp.
    rewrite <- Nat.add_succ_r.
    apply (IH (length argv - S (pos s))); [lia|done].
  - now rewrite arg_shift.
Qed.

(** A successful call prints nothing. *)
Lemma micro_flag_parse_ok_silent flags argv m m' o' :
  micro_flag_parse strtod flags argv m = Some (MICRO_FLAG_OK, m', o') -> o' = "".
Proof.
  intros H. apply parse_from_diagnostic in H as (text & -> & Hd). exact Hd.
Qed.

(** X7.  Parsing composes: when the call on the first part of an
    argument vector succeeds, the call on the whole vector gives what a
    second call gives on the rest, started on the storage the first one
    left. *)
Theorem parse_in_two_calls flags (prog prog' : string) (first rest : list string) m m1 o1 :
  micro_flag_parse strtod flags (prog :: first) m = Some (MICRO_FLAG_OK, m1, o1) ->
  micro_flag_parse strtod flags (prog :: first ++ rest) m
  = micro_flag_parse strtod flags (prog' :: rest) m1.
Proof.
  intros H. pose proof (micro_flag_parse_ok_silent _ _ _ _ _ H) as ->.
  change (prog :: first ++ rest)%list with ((prog :: first) ++ rest)%list.
  rewrite (micro_flag_parse_extend strtod flags (prog :: first) rest m m1 "");
    [|done|exact H].
  unfold micro_flag_parse.
  rewrite <- (Nat.add_0_r (length (prog :: first))), parse_from_shift.
  change (prog' :: rest)%list with ([prog'] ++ rest)%list.
  change 1 with (length [prog'] + 0). now rewrite parse_from_shift.
Qed.

(** X8.  [argv[0]] is never looked at: the result is the same whatever
    the first string of the argument vector is, also when it is the name
    of a flag. *)
Theorem argv0_ignored flags (prog prog' : string) (rest : list string) m :
  micro_flag_parse strtod flags (prog :: rest) m
  = micro_flag_parse strtod flags (prog' :: rest) m.
Proof.
  unfold micro_flag_parse.
  change (prog :: rest)%list with ([prog] ++ rest)%list.
  change (prog' :: rest)%list with ([prog'] ++ rest)%list.
  change 1 with (length [prog] + 0) at 1. rewrite parse_from_shift.
  change 1 with (length [prog'] + 0). now rewrite parse_from_shift.
Qed.

(** ** The storage before and after a call *)

Lemma apply_writes_lookup (ws : list (addr * cell double)) m (a : addr) :
  apply_writes ws m !! a
  = match apply_writes ws ∅ !! a with
    | Some c => Some c
    | None => m !! a
    end.
Proof.
  revert m. induction ws as [|[a0 c0] ws IH]; intros m; simpl.
  - now rewrite lookup_empty.
  - rewrite (IH (<[a0 := c0]> m)), (IH (<[a0 := c0]> ∅)).
    destruct (apply_writes ws ∅ !! a); [done|].
    destruct (decide (a0 = a)) as [->|Hne].
    + now rewrite !lookup_insert_eq.
    + now rewrite !lookup_insert_ne, lookup_empty.
Qed.

Lemma apply_writes_twice (ws : list (addr * cell double)) m :
  apply_writes ws (apply_writes ws m) = apply_writes ws m.
Proof.
  apply map_eq. intros a.
  rewrite (apply_writes_lookup ws (apply_writes ws m)), (apply_writes_lookup ws m).
  now destruct (apply_writes ws ∅ !! a).
Qed.

(** What the switch does is decided by the table and the argument
    vector; the storage only receives the write. *)
Lemma dispatch_uniform argv f (p : nat) (fd : bool) o :
  exists (ret : option MicroFlagError) (p' : nat) (fd' : bool) (o' : string)
         (ws : list (addr * cell double)),
    forall m,
      dispatch strtod argv f (mkState p fd m o)
      = match ret with
        | None => Continue (mkState p' fd' (apply_writes ws m) o')
        | Some e => Return e (mkState p' fd' (apply_writes ws m) o')
        end.
Proof.
  unfold dispatch. simpl.
  destruct (type f).
  - exists None, p, fd, o, [(value f, CBool true)]. done.
  - destruct (length argv <=? p + 1)%nat.
    { exists (Some MICRO_FLAG_ERROR_MISSING_CHAR), p, fd, (o ++ usage_line "<char>" f), []. done. }
    destruct (negb (strlen (arg argv (p + 1)) =? 1)%nat).
    { exists (Some MICRO_FLAG_ERROR_CHAR_WRONG_ARG), p, fd, (o ++ usage_line "<char>" f), []. done. }
    exists None, (S p), fd, o, [(value f, CChar (deref (arg argv (p + 1))))]. done.
  - destruct (length argv <=? p + 1)%nat.
    { exists (Some MICRO_FLAG_ERROR_MISSING_STR), p, fd, (o ++ usage_line "<string>" f), []. done. }
    exists None, (S p), fd, o, [(value f, CStr (arg argv (p + 1)))]. done.
  - destruct (length argv <=? p + 1)%nat.
    { exists (Some MICRO_FLAG_ERROR_MISSING_INT), p, fd, (o ++ usage_line "<integer>" f), []. done. }
    destruct (_ || _).
    { exists (Some MICRO_FLAG_ERROR_NOT_AN_INT), p, fd, (o ++ usage_line "<integer>" f), []. done. }
    exists None, (S p), fd, o, [(value f, CInt (conv_val (strtol (arg argv (p + 1)))))]. done.
  - destruct (length argv <=? p + 1)%nat.
    { exists (Some MICRO_FLAG_ERROR_MISSING_DOUBLE), p, fd, (o ++ usage_line "<double>" f), []. done. }
    destruct (_ || _).
    { exists (Some MICRO_FLAG_ERROR_NOT_A_DOUBLE), p, fd, (o ++ usage_line "<double>" f), []. done. }
    exists None, (S p), fd, o, [(value f, CDouble (conv_val (strtod (arg argv (p + 1)))))]. done.
  - exists (Some MICRO_FLAG_ERROR_UNKNOWN_TYPE), p, fd, o, []. done.
Qed.

Lemma scan_flags_uniform argv flags (p : nat) (fd : bool) o :
  exists (ret : option MicroFlagError) (p' : nat) (fd' : bool) (o' : string)
         (ws : list (addr * cell double)),
    forall m,
      scan_flags strtod argv flags (mkState p fd m o)
      = match ret with
        | None => Continue (mkState p' fd' (apply_writes ws m) o')
        | Some e => Return e (mkState p' fd' (apply_writes ws m) o')
        end.
Proof.
  revert p fd o. induction flags as [|f flags IH]; intros p fd o; simpl.
  { exists None, p, fd, o, []. done. }
  unfold flag_body. simpl.
  destruct (matches f (arg argv p)).
  - destruct (dispatch_uniform argv f p true o) as (ret & p1 & fd1 & o1 & ws1 & Hd).
    destruct ret as [e|].
    + exists (Some e), p1, fd1, o1, ws1. intros m.
      change (set_found (mkState p fd m o)) with (mkState p true m o).
      now rewrite Hd.
    + destruct (IH p1 fd1 o1) as (ret & p2 & fd2 & o2 & ws2 & Hs).
      exists ret, p2, fd2, o2, (ws1 ++ ws2)%list. intros m.
      change (set_found (mkState p fd m o)) with (mkState p true m o).
      rewrite Hd, Hs, apply_writes_app. done.
  - destruct (IH p fd o) as (ret & p2 & fd2 & o2 & ws2 & Hs).
    exists ret, p2, fd2, o2, ws2. exact Hs.
Qed.

Lemma parse_from_uniform flags argv (i : nat) o :
  exists e (ws : list (addr * cell double)) o',
    forall m, parse_from strtod flags argv i m o = Some (e, apply_writes ws m, o').
Proof.
  remember (length argv - i) as n eqn:Hn. revert i o Hn.
  induction n as [n IH] using lt_wf_ind. intros i o Hn.
  destruct (length argv <=? i)%nat eqn:Hle.
  { exists MICRO_FLAG_OK, [], o. intros m. rewrite parse_from_unfold, Hle. done. }
  destruct (scan_flags_uniform argv flags i false o) as (ret & p & fd & o1 & ws & Hs).
  destruct ret as [e|].
  { exists e, ws, o1. intros m. rewrite parse_from_unfold, Hle, Hs. done. }
  destruct fd.
  - assert (i <= p < length argv) as Hp.
    { pose proof (Hs ∅) as H0. apply scan_flags_in_bounds in H0 as (H0 & _).
      - exact H0.
      - simpl. now apply Nat.leb_gt. }
    destruct (IH (length argv - S p)) with (i := S p) (o := o1)
      as (e & ws' & o' & Hrest); [lia|done|].
    exists e, (ws ++ ws')%list, o'. intros m.
    rewrite parse_from_unfold, Hle, Hs. simpl. rewrite Hrest, apply_writes_app. done.
  - exists MICRO_FLAG_ERROR_UNKNOWN_FLAG, ws, (o1 ++ unknown_flag_line (arg argv p)).
    intros m. rewrite parse_from_unfold, Hle, Hs. simpl. reflexivity.
Qed.

(** X4.  The initial contents of the destinations have no influence: the
    returned code, the text printed and the list of writes are decided
    by the table and the argument vector alone, and the storage left is
    the caller's storage with those writes applied. *)
Theorem parse_ignores_initial_values flags argv :
  exists e (ws : list (addr * cell double)) o,
    forall m, micro_flag_parse strtod flags argv m = Some (e, apply_writes ws m, o).
Proof. apply parse_from_uniform. Qed.

(** X5.  A call is idempotent: run again on the storage it left, with the
    same table and argument vector, it returns the same code, prints the
    same text and leaves the storage as it is. *)
Theorem parse_idempotent flags argv m e m' o' :
  micro_flag_parse strtod flags argv m = Some (e, m', o') ->
  micro_flag_parse strtod flags argv m' = Some (e, m', o').
Proof.
  intros H. destruct (parse_from_uniform flags argv 1 "") as (e0 & ws & o0 & Hall).
  unfold micro_flag_parse in *. rewrite Hall in H. simplify_eq.
  rewrite Hall, apply_writes_twice. done.
Qed.

Lemma written_by_holds_kind f (w : cell double) :
  written_by f w -> holds_kind (type f) w.
Proof. unfold written_by, holds_kind. destruct (type f), w; done. Qed.

Lemma well_typed_write flags f m (w : cell double) :
  consistent flags -> f ∈ flags -> written_by f w ->
  well_typed flags m -> well_typed flags (<[value f := w]> m).
Proof.
  intros Hcons Hf Hw Hm0.
  unfold well_typed in *. rewrite Forall_forall in *. intros g Hg.
  destruct (decide (value f = value g)) as [Heq|Hne].
  - exists w. rewrite Heq, lookup_insert_eq. split; [done|].
    unfold consistent in Hcons. rewrite Forall_forall in Hcons.
    pose proof (Hcons f Hf) as Hfg. rewrite Forall_forall in Hfg.
    rewrite <- (Hfg g Hg Heq). now apply written_by_holds_kind.
  - rewrite lookup_insert_ne by done. now apply Hm0.
Qed.

(** X6.  Where every declaration points to a variable of its own kind
    (and declarations sharing a variable are of one kind), it still does
    after the call, however the call ends: a Bool variable holds a
    [bool], an Int variable an integer within the range of [int], and so
    on. *)
Theorem parse_keeps_storage_typed flags argv m e m' o' :
  consistent flags ->
  well_typed flags m ->
  micro_flag_parse strtod flags argv m = Some (e, m', o') ->
  well_typed flags m'.
Proof.
  intros Hcons Hty Hrun.
  eapply (micro_flag_parse_invariant strtod flags argv (well_typed flags));
    [|exact Hty|exact Hrun].
  intros f t m0 w Hf _ _ Hw Hm0. now apply well_typed_write.
Qed.

(** ** The branches of the switch *)

(** X9.  A flag of a kind that takes a value, the first declaration
    matching the token [t] the scan has reached (the call on the tokens
    [pre] before it returns [MICRO_FLAG_OK]), when [t] is the last token
    of the argument vector: the call fails with the [MISSING] error of
    its kind, prints the usage line of the flag with the placeholder of
    its kind, and leaves the storage as the earlier tokens left it. *)
Theorem missing_value flags fs1 f fs2 pre t m m1 o1 :
  flags = (fs1 ++ f :: fs2)%list ->
  takes_value (type f) ->
  matches f t = true ->
  Forall (fun g => matches g t = false) fs1 ->
  pre <> [] ->
  micro_flag_parse strtod flags pre m = Some (MICRO_FLAG_OK, m1, o1) ->
  micro_flag_parse strtod flags (pre ++ [t]) m
  = Some (missing_error (type f), m1,
          o1 ++ usage_line (usage_placeholder (type f)) f).
Proof.
  intros -> [Hnb Hnm] Hm Hno Hne Hpre.
  rewrite (micro_flag_parse_at strtod (fs1 ++ f :: fs2) pre t [] m m1 o1 Hne Hpre).
  rewrite (scan_flags_at_first_match strtod pre t [] fs1 f fs2 m1 o1 Hno Hm).
  unfold dispatch. simpl.
  assert ((length (pre ++ [t]) <=? length pre + 1)%nat = true) as ->
    by (apply Nat.leb_le; rewrite length_app; simpl; lia).
  destruct (type f); done.
Qed.

(** X10.  A Str flag, the first declaration matching the token the scan
    has reached, takes the next token as it is, whatever it is (empty,
    or spelled like a flag): a reference to it is stored and the scan
    goes on one index further; with no later declaration named like the
    value, at the token after it. *)
Theorem str_flag_value flags fs1 f fs2 pre t v post m m1 o1 :
  flags = (fs1 ++ f :: fs2)%list ->
  type f = MICRO_FLAG_STR ->
  matches f t = true ->
  Forall (fun g => matches g t = false) fs1 ->
  pre <> [] ->
  micro_flag_parse strtod flags pre m = Some (MICRO_FLAG_OK, m1, o1) ->
  micro_flag_parse strtod flags (pre ++ t :: v :: post) m
  = after_scan strtod flags (pre ++ t :: v :: post)
      (scan_flags strtod (pre ++ t :: v :: post) fs2
         (mkState (S (length pre)) true (<[value f := CStr v]> m1) o1))
  /\ (Forall (fun g => matches g v = false) fs2 ->
      micro_flag_parse strtod flags (pre ++ t :: v :: post) m
      = parse_from strtod flags (pre ++ t :: v :: post) (length pre + 2)
          (<[value f := CStr v]> m1) o1).
Proof.
  intros -> Hty Hm Hno Hne Hpre.
  pose proof (micro_flag_parse_at strtod (fs1 ++ f :: fs2) pre t (v :: post)
                m m1 o1 Hne Hpre) as Hat.
  rewrite (scan_flags_at_first_match strtod pre t (v :: post) fs1 f fs2 m1 o1 Hno Hm) in Hat.
  unfold dispatch in Hat. rewrite Hty in Hat. simpl in Hat.
  assert ((length (pre ++ t :: v :: post) <=? length pre + 1)%nat = false) as Hlen
    by (apply Nat.leb_gt; rewrite length_app; simpl; lia).
  rewrite Hlen, Nat.add_1_r, arg_middle_S in Hat.
  split; [exact Hat|].
  intros Hno2. rewrite Hat. now apply after_value_no_match.
Qed.

(** X11.  A Double flag, the first declaration matching the token the
    scan has reached, with a following token [v]: the call fails with
    [MICRO_FLAG_ERROR_NOT_A_DOUBLE] when [strtod] converts nothing of
    [v] or reports a range error; otherwise what [strtod] returns is
    stored, whatever follows the number in [v], and the scan goes on one
    index further. *)
Theorem double_flag_value flags fs1 f fs2 pre t v post m m1 o1 :
  flags = (fs1 ++ f :: fs2)%list ->
  type f = MICRO_FLAG_DOUBLE ->
  matches f t = true ->
  Forall (fun g => matches g t = false) fs1 ->
  pre <> [] ->
  micro_flag_parse strtod flags pre m = Some (MICRO_FLAG_OK, m1, o1) ->
  (conv_end (strtod v) = 0 \/ conv_erange (strtod v) = true ->
     micro_flag_parse strtod flags (pre ++ t :: v :: post) m
     = Some (MICRO_FLAG_ERROR_NOT_A_DOUBLE, m1, o1 ++ usage_line "<double>" f))
  /\ (conv_end (strtod v) <> 0 -> conv_erange (strtod v) = false ->
        micro_flag_parse strtod flags (pre ++ t :: v :: post) m
        = after_scan strtod flags (pre ++ t :: v :: post)
            (scan_flags strtod (pre ++ t :: v :: post) fs2
               (mkState (S (length pre)) true
                  (<[value f := CDouble (conv_val (strtod v))]> m1) o1))
        /\ (Forall (fun g => matches g v = false) fs2 ->
              micro_flag_parse strtod flags (pre ++ t :: v :: post) m
              = parse_from strtod flags (pre ++ t :: v :: post) (length pre + 2)
                  (<[value f := CDouble (conv_val (strtod v))]> m1) o1)).
Proof.
  intros -> Hty Hm Hno Hne Hpre.
  pose proof (micro_flag_parse_at strtod (fs1 ++ f :: fs2) pre t (v :: post)
                m m1 o1 Hne Hpre) as Hat.
  rewrite (scan_flags_at_first_match strtod pre t (v :: post) fs1 f fs2 m1 o1 Hno Hm) in Hat.
  unfold dispatch in Hat. rewrite Hty in Hat. simpl in Hat.
  assert ((length (pre ++ t :: v :: post) <=? length pre + 1)%nat = false) as Hlen
    by (apply Nat.leb_gt; rewrite length_app; simpl; lia).
  rewrite Hlen, Nat.add_1_r, arg_middle_S in Hat.
  split.
  - intros Hbad.
    assert ((conv_end (strtod v) =? 0)%nat || conv_erange (strtod v) = true) as Hchk.
    { destruct Hbad as [->| ->]; [done|apply orb_true_r]. }
    rewrite Hchk in Hat. exact Hat.
  - intros Hend Hrange. apply Nat.eqb_neq in Hend.
    rewrite Hend, Hrange in Hat. simpl in Hat.
    split; [exact Hat|].
    intros Hno2. rewrite Hat. now apply after_value_no_match.
Qed.

(** X12.  A Bool flag takes no value: when it is the only declaration
    matching the token the scan has reached, it is set and the tokens
    after it are parsed as they are on their own, the next one being
    read as a flag. *)
Theorem bool_flag_takes_no_value flags fs1 f fs2 (prog : string) pre t post m m1 o1 :
  flags = (fs1 ++ f :: fs2)%list ->
  type f = MICRO_FLAG_BOOL ->
  matches f t = true ->
  Forall (fun g => matches g t = false) fs1 ->
  Forall (fun g => matches g t = false) fs2 ->
  pre <> [] ->
  micro_flag_parse strtod flags pre m = Some (MICRO_FLAG_OK, m1, o1) ->
  micro_flag_parse strtod flags (pre ++ t :: post) m
  = micro_flag_parse strtod flags (prog :: post) (<[value f := CBool true]> m1).
Proof.
  intros -> Hty Hm Hno1 Hno2 Hne Hpre.
  pose proof (micro_flag_parse_ok_silent _ _ _ _ _ Hpre) as ->.
  rewrite (micro_flag_parse_extend strtod _ pre (t :: post) m m1 "" Hne Hpre).
  rewrite (bool_flag_step strtod fs1 f fs2 pre t post m1 "" Hty Hm Hno1 Hno2).
  unfold micro_flag_parse.
  rewrite <- (Nat.add_0_r (length (pre ++ [t]))), parse_from_shift.
  change (prog :: post)%list with ([prog] ++ post)%list.
  change 1 with (length [prog] + 0). now rewrite parse_from_shift.
Qed.

End Further.

(** * Further properties of the help renderer *)

Lemma print_flags_none_iff (flags : list MicroFlag) (o : string) :
  print_flags flags o = None <-> Exists (fun f => type f = _MICRO_FLAG_MAX) flags.
Proof.
  revert o. induction flags as [|f flags IH]; intros o; cbn [print_flags].
  - split; [discriminate|]. intros H. inversion H.
  - destruct (type f) eqn:Hty; simpl;
      try (rewrite IH; split;
           [intros H; now right
           |intros H; apply Exists_cons in H as [H|H]; [congruence|done]]).
    split; [intros _; now left|done].
Qed.

(** X16.  [micro_flag_type_str] is indexed inside its five entries
    exactly when no flag of the table has the kind [_MICRO_FLAG_MAX]:
    with such a flag the renderer reads past the end of the array and
    has no defined result. *)
Theorem print_help_out_of_bounds_iff (prog_name description : string)
    (flags : list MicroFlag) :
  micro_flag_print_help prog_name description flags = None
  <-> Exists (fun f => type f = _MICRO_FLAG_MAX) flags.
Proof.
  unfold micro_flag_print_help. rewrite <- print_flags_none_iff.
  destruct (print_flags flags _) eqn:E; split; intros H; try done.
  rewrite E in H. done.
Qed.

(** * The sample program *)

Section MainProperties.

Context {double : Type}.
Variable strtod : string -> conversion double.
Variable show_f : double -> string.
Variable literal_123_123 : double.

Implicit Types (m : gmap addr (cell double)) (argv : list string).

Lemma example_flags_consistent : consistent example_flags.
Proof.
  unfold consistent, example_flags.
  repeat constructor; simpl; intros H; (reflexivity || discriminate).
Qed.

Lemma initial_args_well_typed :
  well_typed example_flags (initial_args literal_123_123).
Proof.
  unfold well_typed, example_flags, initial_args.
  repeat constructor; simpl; eexists; (split; [reflexivity|]); simpl; done.
Qed.

(** The variables of [main] hold values of their types after the call. *)
Lemma main_variables argv e m o :
  micro_flag_parse strtod example_flags argv (initial_args literal_123_123)
  = Some (e, m, o) ->
  exists (h : bool) (s : string) (c : ascii) (n : Z) (d : double),
    m !! show_help = Some (CBool h) /\ m !! out_name = Some (CStr s)
    /\ m !! a_char = Some (CChar c) /\ m !! a_number = Some (CInt n)
    /\ m !! a_double = Some (CDouble d) /\ in_int_range n.
Proof.
  intros Hrun.
  assert (well_typed example_flags m) as Hty.
  { eapply (micro_flag_parse_invariant strtod example_flags argv (well_typed example_flags));
      [|exact initial_args_well_typed|exact Hrun].
    intros f t m0 w Hf _ _ Hw Hm0.
    apply well_typed_write; [exact example_flags_consistent|done..]. }
  unfold well_typed, example_flags in Hty.
  apply Forall_cons in Hty as [(v1 & H1 & K1) Hty].
  apply Forall_cons in Hty as [(v2 & H2 & K2) Hty].
  apply Forall_cons in Hty as [(v3 & H3 & K3) Hty].
  apply Forall_cons in Hty as [(v4 & H4 & K4) Hty].
  apply Forall_cons in Hty as [(v5 & H5 & K5) _].
  simpl in *.
  destruct v1; try done. destruct v2; try done. destruct v3; try done.
  destruct v4; try done. destruct v5; try done.
  eexists _, _, _, _, _. split_and!; done.
Qed.

Lemma append_cons (x : ascii) (a b : string) : String x a ++ b = String x (a ++ b).
Proof. reflexivity. Qed.

Lemma append_empty_l (a : string) : "" ++ a = a.
Proof. reflexivity. Qed.

Lemma print_values_text (s : string) (c : ascii) (n : Z) (d : double) :
  print_values show_f s c n d
  = "Output file: " ++ s ++ nl
    ++ "A char:      " ++ String c "" ++ nl
    ++ "A number:    " ++ NilZero.string_of_int (Z.to_int n) ++ nl
    ++ "A double:    " ++ show_f d ++ nl.
Proof.
  unfold print_values. simpl.
  repeat (rewrite append_cons || rewrite append_empty_l || rewrite append_assoc).
  reflexivity.
Qed.

Lemma example_help : 
  micro_flag_print_help "example" "A sample application to showcase the library"
    example_flags
  = Some (MICRO_FLAG_OK, example_help_text).
Proof. vm_compute. reflexivity. Qed.

(** X17.  [main] always exits, with status 1 exactly when the parser
    returns an error, and then standard output holds what the parser
    printed and nothing more; otherwise the status is 0. *)
Theorem main_exit_status argv :
  exists e m o,
    micro_flag_parse strtod example_flags argv (initial_args literal_123_123)
    = Some (e, m, o)
    /\ ((e = MICRO_FLAG_OK
         /\ exists text, main strtod show_f literal_123_123 argv = Some (0%Z, text))
        \/ (e <> MICRO_FLAG_OK
            /\ main strtod show_f literal_123_123 argv = Some (1%Z, o))).
Proof.
  destruct (micro_flag_parse_returns strtod example_flags argv
              (initial_args literal_123_123)) as [[[e m] o] Hrun].
  exists e, m, o. split; [exact Hrun|].
  destruct (main_variables argv e m o Hrun)
    as (h & s & c & n & d & Hh & Hs & Hc & Hn & Hd & _).
  unfold main. rewrite Hrun.
  destruct e; try (right; split; [discriminate|reflexivity]).
  left. split; [reflexivity|]. rewrite Hh.
  destruct h.
  - rewrite example_help. eauto.
  - rewrite Hs, Hc, Hn, Hd. eauto.
Qed.

(** X18.  When the call succeeds and [-h] or [--help] was matched,
    [main] prints the help text, and only it, and exits with status 0:
    the values given on the same command line are not printed. *)
Theorem main_help argv m o :
  micro_flag_parse strtod example_flags argv (initial_args literal_123_123)
  = Some (MICRO_FLAG_OK, m, o) ->
  help_flag ∈ matched_flags strtod example_flags argv (initial_args literal_123_123) ->
  main strtod show_f literal_123_123 argv = Some (0%Z, example_help_text).
Proof.
  intros Hrun Hhelp.
  pose proof (micro_flag_parse_ok_silent strtod _ _ _ _ _ Hrun) as ->.
  assert (m !! show_help = Some (CBool true)) as Hh.
  { unfold micro_flag_parse, parse_from in Hrun. unfold matched_flags in Hhelp.
    apply (matched_loop_set strtod (length argv - 1) example_flags argv 1
             (initial_args literal_123_123) "" MICRO_FLAG_OK m "" help_flag);
      [|reflexivity|lia|now left|exact Hrun].
    unfold example_flags. repeat constructor; simpl; discriminate. }
  unfold main. rewrite Hrun, Hh, example_help. reflexivity.
Qed.

Lemma matches_help_flag (t : string) :
  matches help_flag t = true -> t = "-h" \/ t = "--help".
Proof.
  unfold matches, help_flag, name_is.
  cbn [short_name long_name]. intros H.
  apply orb_true_iff in H as [H|H]; apply String.eqb_eq in H; auto.
Qed.

(** X19.  When the call succeeds and no argument is [-h] or [--help],
    [main] prints the four variables as the call left them, the integer
    within the range of [int], and exits with status 0. *)
Theorem main_values argv m o :
  micro_flag_parse strtod example_flags argv (initial_args literal_123_123)
  = Some (MICRO_FLAG_OK, m, o) ->
  Forall (fun t => t <> "-h" /\ t <> "--help") (tail argv) ->
  exists (s : string) (c : ascii) (n : Z) (d : double),
    m !! out_name = Some (CStr s) /\ m !! a_char = Some (CChar c)
    /\ m !! a_number = Some (CInt n) /\ m !! a_double = Some (CDouble d)
    /\ in_int_range n
    /\ main strtod show_f literal_123_123 argv
       = Some (0%Z,
               "Output file: " ++ s ++ nl
               ++ "A char:      " ++ String c "" ++ nl
               ++ "A number:    " ++ NilZero.string_of_int (Z.to_int n) ++ nl
               ++ "A double:    " ++ show_f d ++ nl).
Proof.
  intros Hrun Hnone.
  pose proof (micro_flag_parse_ok_silent strtod _ _ _ _ _ Hrun) as ->.
  destruct (main_variables argv _ m _ Hrun)
    as (h & s & c & n & d & Hh & Hs & Hc & Hn & Hd & Hrange).
  assert (m !! show_help = Some (CBool false)) as Hh'.
  { pose proof Hrun as Hrun'. unfold micro_flag_parse, parse_from in Hrun'.
    rewrite (matched_loop_frame strtod show_help (length argv - 1) example_flags argv 1
               (initial_args literal_123_123) "" MICRO_FLAG_OK m "");
      [reflexivity| |exact Hrun'].
    apply Forall_forall. intros g Hg Hval.
    apply (matched_loop_sound strtod) in Hg as (Hin & t & Ht & Hm); [|lia].
    assert (g = help_flag) as ->.
    { unfold example_flags in Hin.
      repeat (apply elem_of_cons in Hin as [->|Hin]; [reflexivity || discriminate|]).
      inversion Hin. }
    rewrite Forall_forall in Hnone. destruct (Hnone t Ht) as [H1 H2].
    destruct (matches_help_flag t Hm); contradiction. }
  exists s, c, n, d. split_and!; try done.
  unfold main. rewrite Hrun, Hh', Hs, Hc, Hn, Hd, print_values_text. reflexivity.
Qed.

End MainProperties.

(** * The further properties at sample inputs *)

Lemma micro_flag_parse_terminates_witness :
  exists e m' o',
    parse_example ["prog"; "-n"; "42"; "-h"] = Some (e, m', o')
    /\ parse_loop Binary64.strtod 7 example_flags ["prog"; "-n"; "42"; "-h"] 1
         example_args "" = Some (e, m', o').
Proof.
  assert (length ["prog"; "-n"; "42"; "-h"] - 1 <= 7) as H by (simpl; lia).
  exact (micro_flag_parse_terminates Binary64.strtod example_flags
           ["prog"; "-n"; "42"; "-h"] example_args 7 H).
Defined.

Lemma index_stays_in_bounds_witness :
  1 <= pos (flow_state (scan_flags Binary64.strtod ["prog"; "-o"; "-n"; "7"]
                          example_flags (mkState 1 false example_args "")))
    <= 1 + length example_flags
  /\ pos (flow_state (scan_flags Binary64.strtod ["prog"; "-o"; "-n"; "7"]
                        example_flags (mkState 1 false example_args "")))
     < length ["prog"; "-o"; "-n"; "7"].
Proof.
  assert (pos (mkState 1 false example_args "") < length ["prog"; "-o"; "-n"; "7"])
    as H by (simpl; lia).
  exact (index_stays_in_bounds Binary64.strtod ["prog"; "-o"; "-n"; "7"]
           example_flags (mkState 1 false example_args "") H).
Defined.

Lemma micro_flag_parse_diagnostic_witness :
  parse_example ["prog"; "-c"; "ab"]
  = Some (MICRO_FLAG_ERROR_CHAR_WRONG_ARG, example_args,
          "Usage: -c,--char <char>" ++ nl)
  /\ diagnostic_of example_flags ["prog"; "-c"; "ab"] MICRO_FLAG_ERROR_CHAR_WRONG_ARG
       ("Usage: -c,--char <char>" ++ nl).
Proof.
  assert (parse_example ["prog"; "-c"; "ab"]
          = Some (MICRO_FLAG_ERROR_CHAR_WRONG_ARG, example_args,
                  "Usage: -c,--char <char>" ++ nl)) as H by (vm_compute; reflexivity).
  split; [exact H|].
  exact (micro_flag_parse_diagnostic Binary64.strtod example_flags
           ["prog"; "-c"; "ab"] example_args _ _ _ H).
Defined.

Lemma parse_idempotent_witness :
  parse_example ["prog"; "-n"; "42"; "-h"; "--bogus"]
  = Some (MICRO_FLAG_ERROR_UNKNOWN_FLAG,
          <[show_help := CBool true]> (<[a_number := CInt 42]> example_args),
          unknown_flag_line "--bogus")
  /\ micro_flag_parse Binary64.strtod example_flags ["prog"; "-n"; "42"; "-h"; "--bogus"]
       (<[show_help := CBool true]> (<[a_number := CInt 42]> example_args))
     = Some (MICRO_FLAG_ERROR_UNKNOWN_FLAG,
             <[show_help := CBool true]> (<[a_number := CInt 42]> example_args),
             unknown_flag_line "--bogus").
Proof.
  assert (parse_example ["prog"; "-n"; "42"; "-h"; "--bogus"]
          = Some (MICRO_FLAG_ERROR_UNKNOWN_FLAG,
                  <[show_help := CBool true]> (<[a_number := CInt 42]> example_args),
                  unknown_flag_line "--bogus")) as H by (vm_compute; reflexivity).
  split; [exact H|].
  exact (parse_idempotent Binary64.strtod example_flags
           ["prog"; "-n"; "42"; "-h"; "--bogus"] example_args _ _ _ H).
Defined.

Lemma parse_keeps_storage_typed_witness :
  consistent example_flags
  /\ well_typed example_flags example_args
  /\ well_typed example_flags
       (<[a_char := CChar "z"]> (<[a_number := CInt 42]> example_args)).
Proof.
  pose proof example_flags_consistent as H1.
  pose proof (initial_args_well_typed (Binary64.of_decimal false 123123 (-3))) as H2.
  assert (parse_example ["prog"; "-n"; "42"; "-c"; "z"; "-d"]
          = Some (MICRO_FLAG_ERROR_MISSING_DOUBLE,
                  <[a_char := CChar "z"]> (<[a_number := CInt 42]> example_args),
                  "Usage: -d,--double <double>" ++ nl)) as H3
    by (vm_compute; reflexivity).
  refine (conj H1 (conj H2 _)).
  exact (parse_keeps_storage_typed Binary64.strtod example_flags
           ["prog"; "-n"; "42"; "-c"; "z"; "-d"] example_args _ _ _ H1 H2 H3).
Defined.

Lemma parse_in_two_calls_witness :
  parse_example ["prog"; "-n"; "42"]
  = Some (MICRO_FLAG_OK, <[a_number := CInt 42]> example_args, "")
  /\ parse_example ("prog" :: ["-n"; "42"] ++ ["-c"; "z"; "--bogus"])
     = micro_flag_parse Binary64.strtod example_flags ["again"; "-c"; "z"; "--bogus"]
         (<[a_number := CInt 42]> example_args).
Proof.
  assert (parse_example ["prog"; "-n"; "42"]
          = Some (MICRO_FLAG_OK, <[a_number := CInt 42]> example_args, "")) as H
    by (vm_compute; reflexivity).
  split; [exact H|].
  exact (parse_in_two_calls Binary64.strtod example_flags "prog" "again"
           ["-n"; "42"] ["-c"; "z"; "--bogus"] example_args _ _ H).
Defined.

Lemma missing_value_witness :
  parse_example (["prog"; "-h"] ++ ["--output"])
  = Some (MICRO_FLAG_ERROR_MISSING_STR, <[show_help := CBool true]> example_args,
          "" ++ usage_line "<string>"
                  (mkFlag MICRO_FLAG_STR out_name (Some "-o") (Some "--output")
                     "set output file")).
Proof.
  pose (f := mkFlag MICRO_FLAG_STR out_name (Some "-o") (Some "--output") "set output file").
  assert (example_flags = (firstn 1 example_flags ++ f :: skipn 2 example_flags)%list)
    as H1 by reflexivity.
  assert (takes_value (type f)) as H2 by (split; discriminate).
  assert (matches f "--output" = true) as H3 by reflexivity.
  assert (Forall (fun g => matches g "--output" = false) (firstn 1 example_flags)) as H4
    by (repeat constructor).
  assert (["prog"; "-h"] <> []) as H5 by discriminate.
  assert (parse_example ["prog"; "-h"]
          = Some (MICRO_FLAG_OK, <[show_help := CBool true]> example_args, "")) as H6
    by (vm_compute; reflexivity).
  exact (missing_value Binary64.strtod example_flags (firstn 1 example_flags) f
           (skipn 2 example_flags) ["prog"; "-h"] "--output" example_args _ _
           H1 H2 H3 H4 H5 H6).
Defined.

Lemma str_flag_value_witness :
  parse_example ["prog"; "-o"; ""; "-h"]
  = Some (MICRO_FLAG_OK,
          <[show_help := CBool true]> (<[out_name := CStr ""]> example_args), "").
Proof.
  pose (f := mkFlag MICRO_FLAG_STR out_name (Some "-o") (Some "--output") "set output file").
  assert (example_flags = (firstn 1 example_flags ++ f :: skipn 2 example_flags)%list)
    as H1 by reflexivity.
  assert (type f = MICRO_FLAG_STR) as H2 by reflexivity.
  assert (matches f "-o" = true) as H3 by reflexivity.
  assert (Forall (fun g => matches g "-o" = false) (firstn 1 example_flags)) as H4
    by (repeat constructor).
  assert (["prog"] <> []) as H5 by discriminate.
  assert (parse_example ["prog"] = Some (MICRO_FLAG_OK, example_args, "")) as H6
    by reflexivity.
  assert (Forall (fun g => matches g "" = false) (skipn 2 example_flags)) as H7
    by (repeat constructor).
  exact (proj2 (str_flag_value Binary64.strtod example_flags (firstn 1 example_flags) f
                  (skipn 2 example_flags) ["prog"] "-o" "" ["-h"] example_args _ _
                  H1 H2 H3 H4 H5 H6) H7).
Defined.

Lemma double_flag_value_witness :
  parse_example ["prog"; "-d"; "1e999"]
  = Some (MICRO_FLAG_ERROR_NOT_A_DOUBLE, example_args,
          "Usage: -d,--double <double>" ++ nl)
  /\ parse_example ["prog"; "-d"; "-3.5kg"]
     = Some (MICRO_FLAG_OK,
             <[a_double := CDouble (binary_normalize Binary64.prec Binary64.emax
                                      (-7) (-1) false)]> example_args,
             "").
Proof.
  pose (f := mkFlag MICRO_FLAG_DOUBLE a_double (Some "-d") (Some "--double") "print a double").
  assert (example_flags = (firstn 4 example_flags ++ f :: [])%list) as H1 by reflexivity.
  assert (type f = MICRO_FLAG_DOUBLE) as H2 by reflexivity.
  assert (matches f "-d" = true) as H3 by reflexivity.
  assert (Forall (fun g => matches g "-d" = false) (firstn 4 example_flags)) as H4
    by (repeat constructor).
  assert (["prog"] <> []) as H5 by discriminate.
  assert (parse_example ["prog"] = Some (MICRO_FLAG_OK, example_args, "")) as H6
    by reflexivity.
  assert (conv_end (Binary64.strtod "1e999") = 0
          \/ conv_erange (Binary64.strtod "1e999") = true) as H7
    by (right; vm_compute; reflexivity).
  assert (conv_end (Binary64.strtod "-3.5kg") <> 0) as H8 by (vm_compute; discriminate).
  assert (conv_erange (Binary64.strtod "-3.5kg") = false) as H9
    by (vm_compute; reflexivity).
  assert (Forall (fun g => matches g "-3.5kg" = false) []) as H10 by constructor.
  split.
  - exact (proj1 (double_flag_value Binary64.strtod example_flags (firstn 4 example_flags)
                    f [] ["prog"] "-d" "1e999" [] example_args _ _
                    H1 H2 H3 H4 H5 H6) H7).
  - exact (proj2 (proj2 (double_flag_value Binary64.strtod example_flags
                           (firstn 4 example_flags) f [] ["prog"] "-d" "-3.5kg" []
                           example_args _ _ H1 H2 H3 H4 H5 H6) H8 H9) H10).
Defined.

Lemma bool_flag_takes_no_value_witness :
  parse_example (["prog"] ++ "-h" :: ["5"])
  = micro_flag_parse Binary64.strtod example_flags ["prog"; "5"]
      (<[show_help := CBool true]> example_args).
Proof.
  assert (example_flags = ([] ++ help_flag :: skipn 1 example_flags)%list) as H1
    by reflexivity.
  assert (type help_flag = MICRO_FLAG_BOOL) as H2 by reflexivity.
  assert (matches help_flag "-h" = true) as H3 by reflexivity.
  assert (Forall (fun g => matches g "-h" = false) []) as H4 by constructor.
  assert (Forall (fun g => matches g "-h" = false) (skipn 1 example_flags)) as H5
    by (repeat constructor).
  assert (["prog"] <> []) as H6 by discriminate.
  assert (parse_example ["prog"] = Some (MICRO_FLAG_OK, example_args, "")) as H7
    by reflexivity.
  exact (bool_flag_takes_no_value Binary64.strtod example_flags [] help_flag
           (skipn 1 example_flags) "prog" ["prog"] "-h" ["5"] example_args _ _
           H1 H2 H3 H4 H5 H6 H7).
Defined.

Lemma unmatched_destination_untouched_witness :
  parse_example ["prog"; "-n"; "42"; "-h"; "-c"]
  = Some (MICRO_FLAG_ERROR_MISSING_CHAR,
          <[show_help := CBool true]> (<[a_number := CInt 42]> example_args),
          "Usage: -c,--char <char>" ++ nl)
  /\ <[show_help := CBool true]> (<[a_number := CInt 42]> example_args) !! out_name
     = example_args !! out_name.
Proof.
  assert (Forall (fun g => value g = out_name ->
                    Forall (fun t => matches g t = false)
                      (tail ["prog"; "-n"; "42"; "-h"; "-c"])) example_flags) as H1
    by (repeat constructor; discriminate).
  assert (parse_example ["prog"; "-n"; "42"; "-h"; "-c"]
          = Some (MICRO_FLAG_ERROR_MISSING_CHAR,
                  <[show_help := CBool true]> (<[a_number := CInt 42]> example_args),
                  "Usage: -c,--char <char>" ++ nl)) as H2 by (vm_compute; reflexivity).
  split; [exact H2|].
  exact (unmatched_destination_untouched Binary64.strtod example_flags out_name
           ["prog"; "-n"; "42"; "-h"; "-c"] example_args _ _ _ H1 H2).
Defined.

Lemma bool_flag_at_token_set_witness :
  parse_example (["prog"; "-n"; "42"] ++ "--help" :: ["-c"])
  = Some (MICRO_FLAG_ERROR_MISSING_CHAR,
          <[show_help := CBool true]> (<[a_number := CInt 42]> example_args),
          "Usage: -c,--char <char>" ++ nl)
  /\ <[show_help := CBool true]> (<[a_number := CInt 42]> example_args) !! value help_flag
     = Some (CBool true).
Proof.
  assert (example_flags = ([] ++ help_flag :: skipn 1 example_flags)%list) as H1
    by reflexivity.
  assert (type help_flag = MICRO_FLAG_BOOL) as H2 by reflexivity.
  assert (matches help_flag "--help" = true) as H3 by reflexivity.
  assert (Forall (fun g => matches g "--help" = true -> type g = MICRO_FLAG_BOOL) [])
    as H4 by constructor.
  assert (Forall (fun g => value g = value help_flag -> type g = MICRO_FLAG_BOOL)
            example_flags) as H5 by (repeat constructor; discriminate).
  assert (["prog"; "-n"; "42"] <> []) as H6 by discriminate.
  assert (parse_example ["prog"; "-n"; "42"]
          = Some (MICRO_FLAG_OK, <[a_number := CInt 42]> example_args, "")) as H7
    by (vm_compute; reflexivity).
  assert (parse_example (["prog"; "-n"; "42"] ++ "--help" :: ["-c"])
          = Some (MICRO_FLAG_ERROR_MISSING_CHAR,
                  <[show_help := CBool true]> (<[a_number := CInt 42]> example_args),
                  "Usage: -c,--char <char>" ++ nl)) as H8 by (vm_compute; reflexivity).
  split; [exact H8|].
  exact (bool_flag_at_token_set Binary64.strtod example_flags help_flag []
           (skipn 1 example_flags) ["prog"; "-n"; "42"] "--help" ["-c"] example_args
           _ _ _ _ _ H1 H2 H3 H4 H5 H6 H7 H8).
Defined.


Lemma main_help_witness :
  main64 ["prog"; "-n"; "5"; "--help"] = Some (0%Z, example_help_text).
Proof.
  assert (micro_flag_parse Binary64.strtod example_flags ["prog"; "-n"; "5"; "--help"]
            (initial_args (Binary64.of_decimal false 123123 (-3)))
          = Some (MICRO_FLAG_OK,
                  <[show_help := CBool true]> (<[a_number := CInt 5]> example_args), ""))
    as H1 by (vm_compute; reflexivity).
  assert (help_flag ∈ matched_flags Binary64.strtod example_flags
                        ["prog"; "-n"; "5"; "--help"]
                        (initial_args (Binary64.of_decimal false 123123 (-3)))) as H2
    by (vm_compute; right; left).
  exact (main_help Binary64.strtod format_f (Binary64.of_decimal false 123123 (-3))
           ["prog"; "-n"; "5"; "--help"] _ _ H1 H2).
Defined.

Lemma main_values_witness :
  exists (s : string) (c : ascii) (n : Z) (d : Binary64.double),
    <[a_double := CDouble (binary_normalize Binary64.prec Binary64.emax (-7) (-1) false)]>
      (<[a_number := CInt 42]> example_args) !! out_name = Some (CStr s)
    /\ <[a_double := CDouble (binary_normalize Binary64.prec Binary64.emax (-7) (-1) false)]>
         (<[a_number := CInt 42]> example_args) !! a_char = Some (CChar c)
    /\ <[a_double := CDouble (binary_normalize Binary64.prec Binary64.emax (-7) (-1) false)]>
         (<[a_number := CInt 42]> example_args) !! a_number = Some (CInt n)
    /\ <[a_double := CDouble (binary_normalize Binary64.prec Binary64.emax (-7) (-1) false)]>
         (<[a_number := CInt 42]> example_args) !! a_double = Some (CDouble d)
    /\ in_int_range n
    /\ main64 ["prog"; "-n"; "42"; "-d"; "-3.5"]
       = Some (0%Z,
               "Output file: " ++ s ++ nl
               ++ "A char:      " ++ String c "" ++ nl
               ++ "A number:    " ++ NilZero.string_of_int (Z.to_int n) ++ nl
               ++ "A double:    " ++ format_f d ++ nl).
Proof.
  assert (micro_flag_parse Binary64.strtod example_flags ["prog"; "-n"; "42"; "-d"; "-3.5"]
            (initial_args (Binary64.of_decimal false 123123 (-3)))
          = Some (MICRO_FLAG_OK,
                  <[a_double := CDouble (binary_normalize Binary64.prec Binary64.emax
                                           (-7) (-1) false)]>
                    (<[a_number := CInt 42]> example_args), "")) as H1
    by (vm_compute; reflexivity).
  assert (Forall (fun t => t <> "-h" /\ t <> "--help")
            (tail ["prog"; "-n"; "42"; "-d"; "-3.5"])) as H2
    by (repeat constructor; discriminate).
  exact (main_values Binary64.strtod format_f (Binary64.of_decimal false 123123 (-3))
           ["prog"; "-n"; "42"; "-d"; "-3.5"] _ _ H1 H2).
Defined.

(** [main] with no argument, and with every flag but [-h]. *)
Example main_defaults :
  main64 ["prog"]
  = Some (0%Z,
          "Output file: out" ++ nl
          ++ "A char:      A" ++ nl
          ++ "A number:    0" ++ nl
          ++ "A double:    123.123000" ++ nl).
Proof. vm_compute. reflexivity. Qed.

Example main_all_values :
  main64 ["prog"; "-d"; "-3.5"; "-n"; "-42"; "-c"; "x"; "-o"; "file"]
  = Some (0%Z,
          "Output file: file" ++ nl
          ++ "A char:      x" ++ nl
          ++ "A number:    -42" ++ nl
          ++ "A double:    -3.500000" ++ nl).
Proof. vm_compute. reflexivity. Qed.
